(** * Azure Service Bus source adapter

    A shallow embedding of
    [pkg/sources/adapter/azureservicebussource/adapter.go]: resource ID
    validation, entity paths, the selection of the authentication method
    and the per-message handler (process, validate, sanitize, send,
    complete).

    Go strings are byte strings and are modelled by [string]; a Go [error]
    interface value is modelled by [option error], [None] being [nil].
    Pointers to CloudEvents are locations in a store, so that the in-place
    update done by the sanitizer is visible through every alias.

    The construction of the adapter ([NewAdapter]) and the helpers of the
    end-to-end tests that create Service Bus namespaces are embedded as
    well, each with the calls it makes to the SDKs. *)

From Stdlib Require Import Ascii String.
From stdpp Require Import base strings list gmap fin_maps.

Set Warnings "-register-all".

Local Open Scope string_scope.

(** ** Go error values *)

(** The three shapes of error value the adapter builds or receives:
    [errors.New] and [fmt.Errorf] without [%w] give a plain message;
    [fmt.Errorf] with [%w] keeps the formatted message next to the wrapped
    error; [errList] is the adapter's own aggregate. Errors returned by the
    SDKs are values of the same type. *)
Inductive error : Type :=
| errorString (s : string)
| wrapError (msg : string) (err : error)
| errList (errs : list error).

(** [strings.Join]-like helper used by the [%q] verb on a slice: elements
    are separated by one space. *)
Fixpoint join_space (l : list string) : string :=
  match l with
  | [] => EmptyString
  | [s] => s
  | s :: rest => s +:+ " " +:+ join_space rest
  end.

(** [strconv.Quote] on strings of ASCII bytes, as Go writes it: a
    backslash before a double quote and before a backslash; the escapes
    [\a], [\b], [\f], [\n], [\r], [\t] and [\v]; [\x] and two
    lower-case hexadecimal digits for every other control byte and for
    DEL; every other byte as it is. A byte above 0x7f is written with the
    [\x] escape, which is what Go writes for a byte that is not part of
    a valid UTF-8 sequence (for the printable runes that it keeps, Go
    consults the Unicode tables). *)
Definition lowerhex (n : nat) : ascii :=
  match String.get n "0123456789abcdef" with
  | Some c => c
  | None => "0"%char
  end.

Definition escape_byte (c : ascii) : string :=
  String "092"%char
    (String "x"%char
       (String (lowerhex (nat_of_ascii c / 16))
          (String (lowerhex (nat_of_ascii c mod 16)) EmptyString))).

Definition escape_char (c : ascii) : string :=
  let n := nat_of_ascii c in
  if (n =? 34)%nat || (n =? 92)%nat then String "092"%char (String c EmptyString)
  else if (n =? 7)%nat then String "092"%char "a"
  else if (n =? 8)%nat then String "092"%char "b"
  else if (n =? 12)%nat then String "092"%char "f"
  else if (n =? 10)%nat then String "092"%char "n"
  else if (n =? 13)%nat then String "092"%char "r"
  else if (n =? 9)%nat then String "092"%char "t"
  else if (n =? 11)%nat then String "092"%char "v"
  else if (n <? 32)%nat || (126 <? n)%nat then escape_byte c
  else String c EmptyString.

Fixpoint quote_body (s : string) : string :=
  match s with
  | EmptyString => EmptyString
  | String c rest => escape_char c +:+ quote_body rest
  end.

Definition quote_ascii (s : string) : string :=
  String "034"%char (quote_body s +:+ String "034"%char EmptyString).

(** ** Resource identifiers *)

Definition resourceProviderServiceBus : string := "Microsoft.ServiceBus".
Definition resourceTypeQueues : string := "queues".
Definition resourceTypeTopics : string := "topics".
Definition resourceTypeSubscriptions : string := "subscriptions".

Definition envKeyName : string := "SERVICEBUS_KEY_NAME".
Definition envKeyValue : string := "SERVICEBUS_KEY_VALUE".
Definition envConnStr : string := "SERVICEBUS_CONNECTION_STRING".

(** Modelled from the spec: the declaration of [v1alpha1.AzureResourceID]
    is not part of the sources at hand; the record has the fields the spec
    lists for a resource locator, under the names the adapter reads. *)
Record AzureResourceID : Type := {
  ResourceProvider : string;
  Namespace : string;
  ResourceType : string;
  ResourceName : string;
  SubResourceType : string;
  SubResourceName : string;
}.

(** The process environment: [os.Getenv] gives the empty string for a
    variable that is not set. *)
Definition os_Getenv (environ : gmap string string) (key : string) : string :=
  default EmptyString (environ !! key).

(** One attempt at binding a namespace to an authentication method. *)
Inductive AuthCall : Type :=
| CallWithConnectionString (connStr : string)
| CallWithEnvironmentBinding (namespace : string).

(** The Go runtime: [strconv.Quote], which [json.Unmarshal]'s input and the
    [%q] verb go through. *)
Class GoRuntime : Type := {
  strconv_Quote : string → string;
}.

(** What the adapter takes from the Azure SDKs. [json_Unmarshal] decodes a
    JSON document into a resource ID (through the type's own decoder, which
    is not part of the sources at hand); the two namespace options update
    the namespace they are given and may fail. *)
Class AzureSDK : Type := {
  json_Unmarshal : string → option error * AzureResourceID;
  PublicCloud_ServiceBusEndpointSuffix : string;
  ServiceBusNamespace : Type;
  NamespaceWithConnectionString :
    string → ServiceBusNamespace → option error * ServiceBusNamespace;
  NamespaceWithEnvironmentBinding :
    gmap string string → string → ServiceBusNamespace →
    option error * ServiceBusNamespace;
}.

Section Errors.
Context `{!GoRuntime}.

(** [Error()] of an error value. For [errList] this is
    [fmt.Sprintf("%q", e.errs)]: each message quoted, the whole between
    square brackets. *)
Fixpoint Error (e : error) : string :=
  match e with
  | errorString s => s
  | wrapError msg _ => msg
  | errList errs =>
      match errs with
      | [] => EmptyString
      | _ => "[" +:+ join_space (map (λ x, strconv_Quote (Error x)) errs) +:+ "]"
      end
  end.

(** [fmt.Errorf(prefix + "%w", err)]. *)
Definition Errorf_w (prefix : string) (err : error) : error :=
  wrapError (prefix +:+ Error err) err.

End Errors.

Section Configuration.
Context `{!GoRuntime} `{!AzureSDK}.

Definition parseServiceBusResourceID (resIDStr : string)
  : error + AzureResourceID :=
  let '(err, resID) := json_Unmarshal (strconv_Quote resIDStr) in
  match err with
  | Some err => inl (Errorf_w "deserializing resource ID string: " err)
  | None =>
      if negb (ResourceProvider resID =? resourceProviderServiceBus)
         || (Namespace resID =? EmptyString)
         || negb (ResourceType resID =? resourceTypeQueues)
            && negb (ResourceType resID =? resourceTypeTopics)
         || (ResourceType resID =? resourceTypeQueues)
            && negb (SubResourceType resID =? EmptyString)
         || (ResourceType resID =? resourceTypeTopics)
            && negb (SubResourceType resID =? resourceTypeSubscriptions)
      then inl (errorString "resource ID does not refer to a Service Bus entity")
      else inr resID
  end.

Definition entityPath (entityID : AzureResourceID) : string :=
  if ResourceType entityID =? resourceTypeQueues then
    let queueName := ResourceName entityID in
    queueName
  else if ResourceType entityID =? resourceTypeTopics then
    let topicName := ResourceName entityID in
    let subsName := SubResourceName entityID in
    topicName +:+ "/Subscriptions/" +:+ subsName
  else EmptyString.

Definition connectionStringFromEnvironment
    (environ : gmap string string) (namespace entityPath : string) : string :=
  let connStr := os_Getenv environ envConnStr in
  let keyName := os_Getenv environ envKeyName in
  let keyValue := os_Getenv environ envKeyValue in
  if negb (keyName =? EmptyString) || negb (keyValue =? EmptyString) then
    "Endpoint=sb://" +:+ namespace +:+ "." +:+ PublicCloud_ServiceBusEndpointSuffix
      +:+ ";SharedAccessKeyName=" +:+ keyName
      +:+ ";SharedAccessKey=" +:+ keyValue
      +:+ ";EntityPath=" +:+ entityPath
  else connStr.

(** The connection string a key name and a key value are expected to
    give: the value of the format string of
    [connectionStringFromEnvironment] at these arguments. *)
Definition composed (namespace keyName keyValue entityPath : string) : string :=
  "Endpoint=sb://" +:+ namespace +:+ "." +:+ PublicCloud_ServiceBusEndpointSuffix
    +:+ ";SharedAccessKeyName=" +:+ keyName
    +:+ ";SharedAccessKey=" +:+ keyValue
    +:+ ";EntityPath=" +:+ entityPath.

(** The namespace option returned by [namespaceFromEnvironment], applied
    to a namespace: the error, the namespace as the attempts left it, and
    the attempts made, in order. *)
Definition namespaceFromEnvironment
    (environ : gmap string string) (entityID : AzureResourceID)
    (ns : ServiceBusNamespace)
  : option error * ServiceBusNamespace * list AuthCall :=
  let connStr :=
    connectionStringFromEnvironment environ (Namespace entityID) (entityPath entityID) in
  let '(sasErr, ns1) := NamespaceWithConnectionString connStr ns in
  match sasErr with
  | None => (None, ns1, [CallWithConnectionString connStr])
  | Some sasErr =>
      let '(aadErr, ns2) :=
        NamespaceWithEnvironmentBinding environ (Namespace entityID) ns1 in
      match aadErr with
      | None =>
          (None, ns2,
           [CallWithConnectionString connStr;
            CallWithEnvironmentBinding (Namespace entityID)])
      | Some aadErr =>
          (Some (errorString
                   ("neither Azure Active Directory nor SAS token provider could be built - "
                    +:+ "AAD error: " +:+ Error aadErr
                    +:+ ", SAS error: " +:+ Error sasErr)),
           ns2,
           [CallWithConnectionString connStr;
            CallWithEnvironmentBinding (Namespace entityID)])
      end
  end.
End Configuration.

(** ** Messages and CloudEvents *)

(** A Service Bus message, as far as the adapter reads it. *)
Record Message : Type := {
  Message_ID : string;
  Message_Data : string;
}.

(** A CloudEvent with the attributes of an event envelope; an absent
    [dataschema] is [None]. *)
Record Event : Type := {
  Event_ID : string;
  Event_Source : string;
  Event_Type : string;
  Event_Time : string;
  Event_DataSchema : option string;
  Event_DataContentType : string;
  Event_Data : string;
}.

(** [SetDataSchema]: the empty string clears the attribute. (A reference
    that is not empty is stored as given; the adapter only passes the empty
    string.) *)
Definition Event_SetDataSchema (v : string) (e : Event) : Event :=
  {| Event_ID := Event_ID e;
     Event_Source := Event_Source e;
     Event_Type := Event_Type e;
     Event_Time := Event_Time e;
     Event_DataSchema := if v =? EmptyString then None else Some v;
     Event_DataContentType := Event_DataContentType e;
     Event_Data := Event_Data e |}.

(** [event.ValidationError] is a [map[string]error]: attribute name to
    cause. *)
Abbreviation ValidationError := (gmap string error) (only parsing).

(** Pointers to events are locations of the store. *)
Abbreviation ptr := nat (only parsing).

(** The calls the handler makes to its collaborators, with what they
    returned. *)
Inductive Call : Type :=
| CallProcess (msg : Message)
| CallValidate (ev : Event)
| CallSend (ev : Event) (result : option error)
| CallComplete (msg : Message) (result : option error).

(** The collaborators of the handler: the CloudEvents SDK ([Validate],
    [IsACK] on a result that is not nil, the client's [Send]), the message
    processor and the message's completion. [World] is whatever state the
    sink and the broker keep between calls. The processor allocates the
    events it returns in the store. *)
Class Collaborators : Type := {
  World : Type;
  Event_Validate : Event → option ValidationError;
  ResultIs_ACK : error → bool;
  Client_Send : Event → World → option error * World;
  MessageProcessor_Process :
    Message → gmap ptr Event → World →
    list ptr * option error * gmap ptr Event * World;
  Message_Complete : Message → World → option error * World;
}.

Section Handler.
Context `{!GoRuntime} `{!Collaborators}.

Record State : Type := {
  heap : gmap ptr Event;
  world : World;
  calls : list Call;
}.

(** A computation either returns or panics (a nil pointer is
    dereferenced). *)
Inductive Res (A : Type) : Type :=
| Done (a : A) (s : State)
| Panicked (s : State).
Global Arguments Done {A} a s.
Global Arguments Panicked {A} s.

Definition M (A : Type) : Type := State → Res A.

Definition ret {A} (a : A) : M A := λ s, Done a s.

Definition bind {A B} (m : M A) (k : A → M B) : M B :=
  λ s, match m s with
       | Done a s' => k a s'
       | Panicked s' => Panicked s'
       end.
End Handler.

Notation "x <- m ;; k" := (bind m (λ x, k))
  (at level 100, m at next level, right associativity).

Section HandlerOps.
Context `{!GoRuntime} `{!Collaborators}.

Definition deref (p : ptr) : M Event :=
  λ s, match heap s !! p with
       | Some e => Done e s
       | None => Panicked s
       end.

Definition assign (p : ptr) (e : Event) : M unit :=
  λ s, Done tt {| heap := <[p := e]> (heap s); world := world s; calls := calls s |}.

Definition call_Validate (e : Event) : M (option ValidationError) :=
  λ s, Done (Event_Validate e)
            {| heap := heap s; world := world s;
               calls := calls s ++ [CallValidate e] |}.

Definition call_Send (e : Event) : M (option error) :=
  λ s, let '(result, w) := Client_Send e (world s) in
       Done result
            {| heap := heap s; world := w;
               calls := calls s ++ [CallSend e result] |}.

Definition call_Process (msg : Message) : M (list ptr * option error) :=
  λ s, let '(events, err, h, w) := MessageProcessor_Process msg (heap s) (world s) in
       Done (events, err)
            {| heap := h; world := w; calls := calls s ++ [CallProcess msg] |}.

(** [cloudevents.IsACK]: a nil result is an acknowledgment too. *)
Definition IsACK (target : option error) : bool :=
  match target with
  | None => true
  | Some t => ResultIs_ACK t
  end.

(** [messageCompleteFunc(msg)(ctx)]: the message's completion action,
    run. *)
Definition messageCompleteFunc (msg : Message) : M (option error) :=
  λ s, let '(result, w) := Message_Complete msg (world s) in
       Done result
            {| heap := heap s; world := w;
               calls := calls s ++ [CallComplete msg result] |}.

Definition sendCloudEvent (event : ptr) : M (option error) :=
  e <- deref event ;;
  result <- call_Send e ;;
  if negb (IsACK result) then ret result else ret None.

(** The body of [sanitizeEvent]'s loop, for the attributes in the order
    the range over the map visits them. *)
Fixpoint sanitizeEvent_range (attrs : list string) (origEvent : ptr) : M unit :=
  match attrs with
  | [] => ret tt
  | attr :: rest =>
      _ <- (if attr =? "dataschema" then
              e <- deref origEvent ;;
              assign origEvent (Event_SetDataSchema EmptyString e)
            else ret tt) ;;
      sanitizeEvent_range rest origEvent
  end.

Definition sanitizeEvent (validErrs : ValidationError) (origEvent : ptr) : M ptr :=
  _ <- sanitizeEvent_range (map fst (map_to_list validErrs)) origEvent ;;
  ret origEvent.

(** One iteration of the loop over the events in [handleMessage]. *)
Definition handleMessage_iter (ev : ptr) (sendErrs : list error) : M (list error) :=
  e <- deref ev ;;
  verr <- call_Validate e ;;
  ev <- match verr with
        | Some err => sanitizeEvent err ev
        | None => ret ev
        end ;;
  err <- sendCloudEvent ev ;;
  match err with
  | Some err =>
      sent <- deref ev ;;
      ret (sendErrs ++
           [Errorf_w ("failed to send event with ID " +:+ Event_ID sent +:+ ": ") err])%list
  | None => ret sendErrs
  end.

Fixpoint handleMessage_range (events : list ptr) (sendErrs : list error)
  : M (list error) :=
  match events with
  | [] => ret sendErrs
  | ev :: rest =>
      sendErrs <- handleMessage_iter ev sendErrs ;;
      handleMessage_range rest sendErrs
  end.

(** [msg] is [None] for a nil message. *)
Definition handleMessage (msg : option Message) : M (option error) :=
  match msg with
  | None => ret None
  | Some msg =>
      processed <- call_Process msg ;;
      let '(events, err) := processed in
      match err with
      | Some err =>
          ret (Some (Errorf_w ("processing Service Bus message with ID "
                               +:+ Message_ID msg +:+ ": ") err))
      | None =>
          sendErrs <- handleMessage_range events [] ;;
          if negb (length sendErrs =? 0)%nat then
            ret (Some (Errorf_w "sending events to the sink: " (errList sendErrs)))
          else messageCompleteFunc msg
      end
  end.
End HandlerOps.

(** ** What the handler is expected to do, stated on values *)

Section HandlerSpec.
Context `{!GoRuntime} `{!Collaborators}.

(** The event [sanitizeEvent] leaves behind: [dataschema] cleared when
    the validation error lists it, the event as it was otherwise. *)
Definition sanitized (validErrs : ValidationError) (e : Event) : Event :=
  if bool_decide (is_Some (validErrs !! "dataschema"))
  then Event_SetDataSchema EmptyString e
  else e.

(** The event that is sent for [e]: sanitized when [e] is not valid. *)
Definition corrected (e : Event) : Event :=
  match Event_Validate e with
  | Some validErrs => sanitized validErrs e
  | None => e
  end.

(** The sink's answers to the events [es] sent one after the other. *)
Fixpoint send_all (es : list Event) (w : World)
  : list (Event * option error) * World :=
  match es with
  | [] => ([], w)
  | e :: rest =>
      let '(result, w1) := Client_Send e w in
      let '(sends, w2) := send_all rest w1 in
      ((e, result) :: sends, w2)
  end.

(** The sends that were not acknowledged, each with its cause. *)
Definition failed_sends (sends : list (Event * option error))
  : list (Event * error) :=
  omap (λ er, match er.2 with
              | Some cause => if ResultIs_ACK cause then None else Some (er.1, cause)
              | None => None
              end) sends.

(** The error batch: one entry per failed send, in order, with the id of
    the event and the cause. *)
Definition ErrorBatch (sends : list (Event * option error)) : list error :=
  map (λ ec, Errorf_w ("failed to send event with ID " +:+ Event_ID ec.1 +:+ ": ") ec.2)
      (failed_sends sends).

(** The calls of a dispatch over the events [es]: for each event in
    turn, one validation (of the event, or of its sanitized form when an
    earlier alias of the same pointer was sanitized) followed by one send
    of the corrected event. *)
Inductive dispatch_calls
  : list Event → list (Event * option error) → list Call → Prop :=
| dispatch_calls_nil : dispatch_calls [] [] []
| dispatch_calls_cons e v result es sends cs :
    v = e ∨ v = corrected e →
    dispatch_calls es sends cs →
    dispatch_calls (e :: es) ((corrected e, result) :: sends)
                   (CallValidate v :: CallSend (corrected e) result :: cs).

Definition is_CallComplete (c : Call) : bool :=
  match c with
  | CallComplete _ _ => true
  | _ => false
  end.

Definition is_CallSend (c : Call) : bool :=
  match c with
  | CallSend _ _ => true
  | _ => false
  end.

(** How many times a completion handle was invoked. *)
Definition completions (cs : list Call) : nat :=
  length (filter (λ c, is_CallComplete c = true) cs).

(** How many events were handed to the sink. *)
Definition dispatches (cs : list Call) : nat :=
  length (filter (λ c, is_CallSend c = true) cs).

(** The sink's answer to an event does not depend on what it was sent
    before. *)
Definition answers_by_event : Prop :=
  ∀ e w w', (Client_Send e w).1 = (Client_Send e w').1.
End HandlerSpec.

(** ** The validity rule in the words of the specification *)

(** The rule of the specification for a decoded identifier: the resource
    type is a queue or a topic, a queue has no sub-resource type, a topic
    has the sub-resource type of subscriptions. *)
Definition spec_valid_entity (resID : AzureResourceID) : Prop :=
  (ResourceType resID = resourceTypeQueues ∨ ResourceType resID = resourceTypeTopics)
  ∧ (ResourceType resID = resourceTypeQueues → SubResourceType resID = EmptyString)
  ∧ (ResourceType resID = resourceTypeTopics →
     SubResourceType resID = resourceTypeSubscriptions).

(** ** Sample collaborators, to run the adapter on concrete inputs *)

Definition sample_runtime : GoRuntime := {| strconv_Quote := quote_ascii |}.

Definition queue_q1 : string :=
  "/subscriptions/s1/resourceGroups/rg1/providers/Microsoft.ServiceBus/namespaces/ns1/queues/q1".
Definition topic_t1 : string :=
  "/subscriptions/s1/resourceGroups/rg1/providers/Microsoft.ServiceBus/namespaces/ns1/topics/t1/subscriptions/sub1".
Definition eventhub_q1 : string :=
  "/subscriptions/s1/resourceGroups/rg1/providers/Microsoft.EventHub/namespaces/ns1/queues/q1".

Definition queue_q1_id : AzureResourceID :=
  {| ResourceProvider := "Microsoft.ServiceBus"; Namespace := "ns1";
     ResourceType := "queues"; ResourceName := "q1";
     SubResourceType := EmptyString; SubResourceName := EmptyString |}.
Definition topic_t1_id : AzureResourceID :=
  {| ResourceProvider := "Microsoft.ServiceBus"; Namespace := "ns1";
     ResourceType := "topics"; ResourceName := "t1";
     SubResourceType := "subscriptions"; SubResourceName := "sub1" |}.
Definition eventhub_q1_id : AzureResourceID :=
  {| ResourceProvider := "Microsoft.EventHub"; Namespace := "ns1";
     ResourceType := "queues"; ResourceName := "q1";
     SubResourceType := EmptyString; SubResourceName := EmptyString |}.
Definition zero_id : AzureResourceID :=
  {| ResourceProvider := EmptyString; Namespace := EmptyString;
     ResourceType := EmptyString; ResourceName := EmptyString;
     SubResourceType := EmptyString; SubResourceName := EmptyString |}.

(** A decoder that knows the three sample identifiers. *)
Definition sample_Unmarshal (doc : string) : option error * AzureResourceID :=
  if doc =? quote_ascii queue_q1 then (None, queue_q1_id)
  else if doc =? quote_ascii topic_t1 then (None, topic_t1_id)
  else if doc =? quote_ascii eventhub_q1 then (None, eventhub_q1_id)
  else (Some (errorString "invalid resource ID"), zero_id).

(** A namespace remembers the token provider it was bound to. SAS binding
    wants a connection string that starts with an endpoint; AAD binding
    wants a client ID in the environment. *)
Definition sample_sdk : AzureSDK :=
  {| json_Unmarshal := sample_Unmarshal;
     PublicCloud_ServiceBusEndpointSuffix := "servicebus.windows.net";
     ServiceBusNamespace := option string;
     NamespaceWithConnectionString := λ connStr ns,
       if String.prefix "Endpoint=sb://" connStr then (None, Some "SAS")
       else (Some (errorString "connection string is malformed"), ns);
     NamespaceWithEnvironmentBinding := λ environ _ ns,
       if os_Getenv environ "AZURE_CLIENT_ID" =? EmptyString
       then (Some (errorString "no client credentials"), ns)
       else (None, Some "AAD") |}.

(** Stores the events [es] at fresh locations of [h]. *)
Fixpoint alloc_events (es : list Event) (h : gmap ptr Event)
  : list ptr * gmap ptr Event :=
  match es with
  | [] => ([], h)
  | e :: rest =>
      let p := fresh (dom h) in
      let '(ps, h') := alloc_events rest (<[p := e]> h) in
      (p :: ps, h')
  end.

Definition sample_Validate (e : Event) : option ValidationError :=
  let m1 : gmap string error :=
    if bool_decide (Event_DataSchema e = Some "#")
    then {[ "dataschema" := errorString "if present, MUST adhere to the format specified in RFC 3986" ]}
    else ∅ in
  let m2 : gmap string error :=
    if Event_ID e =? EmptyString
    then <[ "id" := errorString "MUST be a non-empty string" ]> m1
    else m1 in
  if bool_decide (m2 = ∅) then None else Some m2.

(** A sink that keeps the events it accepted and times out on events of
    type [undeliverable]; a broker that refuses to complete the message
    [locklost]; a processor given by [mk]. *)
Definition sample_collaborators (mk : Message → error + list Event) : Collaborators :=
  {| World := list Event;
     Event_Validate := sample_Validate;
     ResultIs_ACK := λ err, match err with
                            | errorString s => s =? "ACK"
                            | _ => false
                            end;
     Client_Send := λ e w,
       if Event_Type e =? "undeliverable" then (Some (errorString "timeout"), w)
       else (None, e :: w);
     MessageProcessor_Process := λ msg h w,
       match mk msg with
       | inl err => ([], Some err, h, w)
       | inr es => let '(ps, h') := alloc_events es h in (ps, None, h', w)
       end;
     Message_Complete := λ msg w,
       if Message_ID msg =? "locklost" then (Some (errorString "lock lost"), w)
       else (None, w) |}.

Definition sample_event (id type : string) (schema : option string) : Event :=
  {| Event_ID := id; Event_Source := queue_q1; Event_Type := type;
     Event_Time := "2021-01-01T00:00:00Z"; Event_DataSchema := schema;
     Event_DataContentType := "application/json"; Event_Data := "{}" |}.

(** One event per message, carrying the message's ID. *)
Definition one_event (msg : Message) : error + list Event :=
  inr [sample_event (Message_ID msg) "com.microsoft.azure.servicebus.message" None].

(** Two events per message; the second cannot be delivered. *)
Definition two_events (msg : Message) : error + list Event :=
  inr [sample_event "e1" "com.microsoft.azure.servicebus.message" None;
       sample_event "e2" "undeliverable" (Some "#")].

(** A processor that cannot interpret any message. *)
Definition no_events (msg : Message) : error + list Event :=
  inl (errorString "unsupported message body").

Definition message_m1 : Message := {| Message_ID := "m1"; Message_Data := "{}" |}.

Definition initial_state (C : Collaborators) (w : @World C) : @State C :=
  {| heap := ∅; world := w; calls := [] |}.

(** The events and the store the sample processor gives for a message,
    from an empty store. *)
Definition processed (mk : Message → error + list Event) (msg : Message)
  : list Event :=
  match mk msg with
  | inl _ => []
  | inr es => es
  end.

Definition processed_ptrs (mk : Message → error + list Event) (msg : Message)
  : list ptr :=
  (alloc_events (processed mk msg) ∅).1.

Definition processed_heap (mk : Message → error + list Event) (msg : Message)
  : gmap ptr Event :=
  (alloc_events (processed mk msg) ∅).2.

(** The state in which the loop starts on the events of [two_events]. *)
Definition two_events_state : @State (sample_collaborators two_events) :=
  {| heap := processed_heap two_events message_m1;
     world := (@nil Event : @World (sample_collaborators two_events));
     calls := [] |}.

(** An event without ID and with a malformed [dataschema], alone in the
    store. *)
Definition anonymous_event : Event :=
  sample_event EmptyString "com.microsoft.azure.servicebus.message" (Some "#").

Definition anonymous_state : @State (sample_collaborators one_event) :=
  {| heap := {[ 0 := anonymous_event ]};
     world := (@nil Event : @World (sample_collaborators one_event));
     calls := [] |}.

(** An environment with a key name and a connection string, and no key
    value. *)
Definition key_name_only : gmap string string :=
  {[ envKeyName := "RootManageSharedAccessKey";
     envConnStr := "Endpoint=sb://other.servicebus.windows.net;SharedAccessKeyName=k;SharedAccessKey=v" ]}.

(** ** The state a run of the handler ends in *)

Section Outcome.
Context `{!GoRuntime} `{!Collaborators}.

(** The state a computation ended in, whether it returned or panicked. *)
Definition final_state {A} (r : Res A) : State :=
  match r with
  | Done _ s => s
  | Panicked s => s
  end.

(** A call that is not a send, or a send that was acknowledged. *)
Definition acknowledged (c : Call) : Prop :=
  match c with
  | CallSend _ result => IsACK result = true
  | _ => True
  end.
End Outcome.

(** ** Construction of the adapter *)

(** The parameters [NewAdapter] reads from [envConfig]. *)
Record envConfig : Type := {
  EntityResourceID : string;
  MessageProcessor : string;
}.

(** The message processors [NewAdapter] can select. The processor itself
    is declared in another file of the package; [NewAdapter] only builds it
    from the CloudEvents source. *)
Inductive MessageProcessorImpl : Type :=
| defaultMessageProcessor (ceSource : string).

(** The calls [NewAdapter] makes to the Service Bus SDK and to the tracing
    registry. *)
Inductive SetupCall : Type :=
| CallNewNamespace
| CallNewReceiver (entityPath : string)
| CallRegisterTracer.

(** The SDK functions [NewAdapter] builds the receiver with:
    [servicebus.NewNamespace], given one namespace option, and the
    namespace's [NewReceiver]. *)
Class ServiceBusSDK `{!AzureSDK} : Type := {
  Receiver : Type;
  CloudEventsClient : Type;
  servicebus_NewNamespace :
    (ServiceBusNamespace → option error * ServiceBusNamespace) →
    error + ServiceBusNamespace;
  Namespace_NewReceiver : ServiceBusNamespace → string → error + Receiver;
}.

Section Construction.
Context `{!GoRuntime} `{!AzureSDK} `{!ServiceBusSDK}.

Record adapter : Type := {
  msgRcvr : Receiver;
  ceClient : CloudEventsClient;
  msgPrcsr : MessageProcessorImpl;
}.

(** [NewAdapter] returns an adapter or panics through the logger, with a
    message and, for [Panicw], the error logged with it. *)
Inductive Setup : Type :=
| Built (a : adapter)
| Panic (msg : string) (err : option error).

Definition NewAdapter (environ : gmap string string) (env : envConfig)
    (ceClient : CloudEventsClient) : Setup * list SetupCall :=
  match parseServiceBusResourceID (EntityResourceID env) with
  | inl err =>
      (Panic ("Unable to parse entity ID " +:+ strconv_Quote (EntityResourceID env))
             (Some err), [])
  | inr entityID =>
      match servicebus_NewNamespace
              (λ ns, (namespaceFromEnvironment environ entityID ns).1) with
      | inl err =>
          (Panic "Unable to obtain interface for Service Bus Namespace" (Some err),
           [CallNewNamespace])
      | inr ns =>
          let path := entityPath entityID in
          match Namespace_NewReceiver ns path with
          | inl err =>
              (Panic ("Unable to obtain message receiver for Service Bus entity "
                      +:+ strconv_Quote path) (Some err),
               [CallNewNamespace; CallNewReceiver path])
          | inr rcvr =>
              let ceSource := EntityResourceID env in
              if MessageProcessor env =? "default" then
                (Built {| ceClient := ceClient;
                          msgRcvr := rcvr;
                          msgPrcsr := defaultMessageProcessor ceSource |},
                 [CallNewNamespace; CallNewReceiver path; CallRegisterTracer])
              else
                (Panic ("unsupported message processor "
                        +:+ strconv_Quote (MessageProcessor env)) None,
                 [CallNewNamespace; CallNewReceiver path])
          end
      end
  end.
End Construction.

(** A sample SDK: a new namespace is unbound, a receiver is the path it
    listens on, and no receiver opens on the empty path. *)
Definition sample_servicebus : @ServiceBusSDK sample_sdk :=
  {| Receiver := string;
     CloudEventsClient := unit;
     servicebus_NewNamespace := λ opt,
       match opt (None : @ServiceBusNamespace sample_sdk) with
       | (Some err, _) => inl err
       | (None, ns) => inr ns
       end;
     Namespace_NewReceiver := λ _ path,
       if path =? EmptyString then inl (errorString "entity path is empty")
       else inr path |}.

(** An environment with a complete key. *)
Definition key_pair : gmap string string :=
  {[ envKeyName := "RootManageSharedAccessKey"; envKeyValue := "c2VjcmV0" ]}.

(** An environment with a connection string only. *)
Definition conn_string_only : gmap string string :=
  {[ envConnStr := "Endpoint=sb://ns1.servicebus.windows.net;SharedAccessKeyName=k;SharedAccessKey=v" ]}.

(** ** Helpers of the end-to-end tests for Service Bus namespaces *)

(** The management client of namespaces, as far as the helpers touch
    it. *)
Record NamespacesClient (Authorizer : Type) : Type := {
  SubscriptionID : string;
  ClientAuthorizer : option Authorizer;
}.
Arguments SubscriptionID {Authorizer} _.
Arguments ClientAuthorizer {Authorizer} _.

(** The access keys of a namespace; the primary connection string is a
    pointer, [None] when nil. *)
Record AccessKeys : Type := {
  PrimaryConnectionString : option string;
}.

(** The calls the helpers make. *)
Inductive HelperCall : Type :=
| CallNewAuthorizerFromEnvironment
| CallCreateOrUpdate (rgName nsName region : string)
| CallWaitForCompletionRef
| CallResult
| CallListKeys (resourceGroup namespace rule : string)
| CallNamespaceWithConnectionString (connStr : string)
| CallNewNamespaceService
| CallFailf (offset : nat) (msg : string).

(** What the helpers take from the Azure SDKs and from the test
    framework. [framework.FailfWithOffset] is declared in a package that is
    not part of the sources at hand: it reports the failure and, depending
    on the test runner, returns or aborts the test ([Failf_returns]).
    [sv_NamespaceWithConnectionString] gives a namespace option, or nil. *)
Class TestSDK `{!AzureSDK} `{!ServiceBusSDK} : Type := {
  Authorizer : Type;
  Future : Type;
  Failf_returns : bool;
  servicebus_NewNamespacesClient : string → NamespacesClient Authorizer;
  auth_NewAuthorizerFromEnvironment : gmap string string → error + Authorizer;
  NamespacesClient_CreateOrUpdate :
    NamespacesClient Authorizer → string → string → string → error + Future;
  Future_WaitForCompletionRef : Future → NamespacesClient Authorizer → option error;
  Future_Result : Future → NamespacesClient Authorizer → option error;
  NamespacesClient_ListKeys :
    NamespacesClient Authorizer → string → string → string → error + AccessKeys;
  sv_NamespaceWithConnectionString :
    string → option (ServiceBusNamespace → option error * ServiceBusNamespace);
}.

Section TestHelpers.
Context `{!GoRuntime} `{!AzureSDK} `{!ServiceBusSDK} `{!TestSDK}.

(** A helper returns, is aborted by the test framework, or panics on a
    nil pointer. *)
Inductive Helper (A : Type) : Type :=
| Returns (a : A)
| Aborts
| NilDereference.
Global Arguments Returns {A} a.
Global Arguments Aborts {A}.
Global Arguments NilDereference {A}.

(** [framework.FailfWithOffset(offset, ...)] followed by [return a]. *)
Definition Failf_then_return {A} (offset : nat) (msg : string) (a : A)
    (made : list HelperCall) : Helper A * list HelperCall :=
  (if Failf_returns then Returns a else Aborts, (made ++ [CallFailf offset msg])%list).

Definition CreateServiceBusNamespaceClient
    (environ : gmap string string) (subscriptionID region : string)
  : Helper (option (NamespacesClient Authorizer)) * list HelperCall :=
  let nsClient := servicebus_NewNamespacesClient subscriptionID in
  match auth_NewAuthorizerFromEnvironment environ with
  | inl err =>
      Failf_then_return 3 ("unable to create authorizer: " +:+ Error err) None
                        [CallNewAuthorizerFromEnvironment]
  | inr authorizer =>
      (Returns (Some {| SubscriptionID := SubscriptionID nsClient;
                        ClientAuthorizer := Some authorizer |}),
       [CallNewAuthorizerFromEnvironment])
  end.

Definition CreateServiceBusNamespace
    (cli : NamespacesClient Authorizer) (rgName nsName region : string)
  : Helper (option error) * list HelperCall :=
  match NamespacesClient_CreateOrUpdate cli rgName nsName region with
  | inl err =>
      Failf_then_return 3 ("unable to create servicebus namespace: " +:+ Error err)
                        (Some err) [CallCreateOrUpdate rgName nsName region]
  | inr nsFuture =>
      match Future_WaitForCompletionRef nsFuture cli with
      | Some err =>
          Failf_then_return 3
            ("unable to complete servicebus namespace creation: " +:+ Error err)
            (Some err)
            [CallCreateOrUpdate rgName nsName region; CallWaitForCompletionRef]
      | None =>
          match Future_Result nsFuture cli with
          | Some err =>
              Failf_then_return 3
                ("servicebus namespace creation failed: " +:+ Error err)
                (Some err)
                [CallCreateOrUpdate rgName nsName region; CallWaitForCompletionRef;
                 CallResult]
          | None =>
              (Returns None,
               [CallCreateOrUpdate rgName nsName region; CallWaitForCompletionRef;
                CallResult])
          end
      end
  end.

(** [nsCli] is a pointer, [None] when nil: the call of [ListKeys] on a nil
    client panics before anything is called. *)
Definition CreateNsService (region name : string)
    (nsCli : option (NamespacesClient Authorizer))
  : Helper (option ServiceBusNamespace) * list HelperCall :=
  match nsCli with
  | None => (NilDereference, [])
  | Some cli =>
      match NamespacesClient_ListKeys cli name name "RootManageSharedAccessKey" with
      | inl err =>
          Failf_then_return 3 ("unable to obtain the connection string: " +:+ Error err)
                            None [CallListKeys name name "RootManageSharedAccessKey"]
      | inr keys =>
          match PrimaryConnectionString keys with
          | None => (NilDereference, [CallListKeys name name "RootManageSharedAccessKey"])
          | Some primary =>
              let connectionString := primary +:+ ";EntityPath=" +:+ name in
              match sv_NamespaceWithConnectionString connectionString with
              | None =>
                  Failf_then_return 3
                    ("unable to configure the servicebus namespace service: "
                     +:+ "%!s(<nil>)")
                    None
                    [CallListKeys name name "RootManageSharedAccessKey";
                     CallNamespaceWithConnectionString connectionString]
              | Some svNs =>
                  match servicebus_NewNamespace svNs with
                  | inl err =>
                      Failf_then_return 3
                        ("unable to create the servicebus namespace service: "
                         +:+ Error err)
                        None
                        [CallListKeys name name "RootManageSharedAccessKey";
                         CallNamespaceWithConnectionString connectionString;
                         CallNewNamespaceService]
                  | inr nsService =>
                      (Returns (Some nsService),
                       [CallListKeys name name "RootManageSharedAccessKey";
                        CallNamespaceWithConnectionString connectionString;
                        CallNewNamespaceService])
                  end
              end
          end
      end
  end.
End TestHelpers.

(** ** More sample collaborators *)

(** A test SDK: an authorizer is the client ID of the environment, a
    future is the name of the namespace being created, a creation needs a
    region and its completion needs an authorizer; the framework lets the
    helpers return after a failure. *)
Definition sample_test_sdk : @TestSDK sample_sdk sample_servicebus :=
  {| Authorizer := string;
     Future := string;
     Failf_returns := true;
     servicebus_NewNamespacesClient := λ subscriptionID,
       {| SubscriptionID := subscriptionID; ClientAuthorizer := None |};
     auth_NewAuthorizerFromEnvironment := λ environ,
       if os_Getenv environ "AZURE_CLIENT_ID" =? EmptyString
       then inl (errorString "no client credentials")
       else inr (os_Getenv environ "AZURE_CLIENT_ID");
     NamespacesClient_CreateOrUpdate := λ _ _ nsName region,
       if region =? EmptyString then inl (errorString "location is required")
       else inr nsName;
     Future_WaitForCompletionRef := λ _ cli,
       match ClientAuthorizer cli with
       | None => Some (errorString "unauthorized")
       | Some _ => None
       end;
     Future_Result := λ _ _, None;
     NamespacesClient_ListKeys := λ _ _ namespace rule,
       inr {| PrimaryConnectionString :=
                Some ("Endpoint=sb://" +:+ namespace
                      +:+ ".servicebus.windows.net/;SharedAccessKeyName=" +:+ rule
                      +:+ ";SharedAccessKey=c2VjcmV0") |};
     sv_NamespaceWithConnectionString := λ connStr,
       Some (@NamespaceWithConnectionString sample_sdk connStr) |}.

(** A client without authorizer. *)
Definition anonymous_client : NamespacesClient string :=
  {| SubscriptionID := "s1"; ClientAuthorizer := None |}.

(** The collaborators of [one_event], with a processor that returns,
    after the pointer to its event, a pointer that refers to nothing. *)
Definition nil_event_collaborators : Collaborators :=
  {| World := list Event;
     Event_Validate := sample_Validate;
     ResultIs_ACK := @ResultIs_ACK (sample_collaborators one_event);
     Client_Send := @Client_Send (sample_collaborators one_event);
     MessageProcessor_Process := λ msg h w,
       let '(ps, h') := alloc_events (processed one_event msg) h in
       ((ps ++ [fresh (dom h')])%list, None, h', w);
     Message_Complete := @Message_Complete (sample_collaborators one_event) |}.

(** A processor that gives no event. *)
Definition zero_events (msg : Message) : error + list Event := inr [].

(** The state in which the loop starts on the event of [one_event]. *)
Definition one_event_state : @State (sample_collaborators one_event) :=
  {| heap := processed_heap one_event message_m1;
     world := (@nil Event : @World (sample_collaborators one_event));
     calls := [] |}.

(** The parameters of an adapter for the sample queue. *)
Definition queue_env (processor : string) : envConfig :=
  {| EntityResourceID := queue_q1; MessageProcessor := processor |}.

(** * Properties of the configuration code *)

Section ConfigurationFacts.
Context `{!GoRuntime} `{!AzureSDK}.

Lemma eqb_false_iff (a b : string) : (a =? b) = false ↔ a ≠ b.
Proof. apply String.eqb_neq. Qed.

Lemma eqb_true_iff (a b : string) : (a =? b) = true ↔ a = b.
Proof. apply String.eqb_eq. Qed.

(** The guard of [parseServiceBusResourceID], as a proposition. *)
Lemma entity_guard resID :
  negb (ResourceProvider resID =? resourceProviderServiceBus)
  || (Namespace resID =? EmptyString)
  || negb (ResourceType resID =? resourceTypeQueues)
     && negb (ResourceType resID =? resourceTypeTopics)
  || (ResourceType resID =? resourceTypeQueues)
     && negb (SubResourceType resID =? EmptyString)
  || (ResourceType resID =? resourceTypeTopics)
     && negb (SubResourceType resID =? resourceTypeSubscriptions) = false
  ↔ ResourceProvider resID = resourceProviderServiceBus
    ∧ Namespace resID ≠ EmptyString
    ∧ spec_valid_entity resID.
Proof.
  unfold spec_valid_entity.
  destruct (String.eqb_spec (ResourceProvider resID) resourceProviderServiceBus) as [Hp|Hp];
    destruct (String.eqb_spec (Namespace resID) EmptyString) as [Hn|Hn];
    destruct (String.eqb_spec (ResourceType resID) resourceTypeQueues) as [Hq|Hq];
    destruct (String.eqb_spec (ResourceType resID) resourceTypeTopics) as [Ht|Ht];
    destruct (String.eqb_spec (SubResourceType resID) EmptyString) as [Hs|Hs];
    destruct (String.eqb_spec (SubResourceType resID) resourceTypeSubscriptions) as [Hu|Hu];
    simpl; split; try discriminate; try tauto;
    try (rewrite Hq in Ht; discriminate Ht);
    try (rewrite Hs in Hu; discriminate Hu);
    intros _; repeat split; auto; try tauto; try congruence.
Qed.

(** C5, as amended. For a string that decodes to [resID], parsing
    succeeds (and returns [resID]) if and only if [resID] names the
    Service Bus provider, has a namespace, and is a queue without
    sub-resource type or a topic whose sub-resource type is
    [subscriptions]; in every other case it fails with the error
    [resource ID does not refer to a Service Bus entity]. *)
Theorem parseServiceBusResourceID_decoded (resIDStr : string) (resID : AzureResourceID) :
  json_Unmarshal (strconv_Quote resIDStr) = (None, resID) →
  let supported :=
    ResourceProvider resID = resourceProviderServiceBus
    ∧ Namespace resID ≠ EmptyString
    ∧ spec_valid_entity resID in
  ((∃ r, parseServiceBusResourceID resIDStr = inr r) ↔ supported)
  ∧ (supported → parseServiceBusResourceID resIDStr = inr resID)
  ∧ (¬ supported →
     parseServiceBusResourceID resIDStr
     = inl (errorString "resource ID does not refer to a Service Bus entity")).
Proof.
  intros Hdec supported. unfold parseServiceBusResourceID. rewrite Hdec.
  pose proof (entity_guard resID) as Hg. fold supported in Hg.
  match goal with |- context [if ?g then _ else _] => destruct g eqn:Eg end.
  - assert (¬ supported) as Hns by (intros Hs; apply Hg in Hs; discriminate Hs).
    split; [|split].
    + split; [intros [r Hr]; discriminate Hr | intros Hs; contradiction].
    + intros Hs; contradiction.
    + reflexivity.
  - assert supported as Hs by (apply Hg; reflexivity).
    split; [|split].
    + split; [intros _; exact Hs | intros _; eexists; reflexivity].
    + reflexivity.
    + intros Hns; contradiction.
Qed.

(** C6. The entity path is the queue name for a queue, the topic name,
    [/Subscriptions/] and the subscription name for a topic, and the
    empty string for every other resource type. *)
Theorem entityPath_cases (entityID : AzureResourceID) :
  (ResourceType entityID = resourceTypeQueues →
   entityPath entityID = ResourceName entityID)
  ∧ (ResourceType entityID = resourceTypeTopics →
     entityPath entityID
     = ResourceName entityID +:+ "/Subscriptions/" +:+ SubResourceName entityID)
  ∧ (ResourceType entityID ≠ resourceTypeQueues →
     ResourceType entityID ≠ resourceTypeTopics →
     entityPath entityID = EmptyString).
Proof.
  unfold entityPath. split; [|split].
  - intros ->. reflexivity.
  - intros ->. reflexivity.
  - intros Hq Ht.
    apply eqb_false_iff in Hq. apply eqb_false_iff in Ht.
    rewrite Hq, Ht. reflexivity.
Qed.

Lemma os_Getenv_insert_ne environ k k' v :
  k ≠ k' → os_Getenv (<[k := v]> environ) k' = os_Getenv environ k'.
Proof. intros Hne. unfold os_Getenv. rewrite lookup_insert_ne; done. Qed.

Lemma connectionStringFromEnvironment_composed
    (environ : gmap string string) (namespace path : string) :
  os_Getenv environ envKeyName ≠ EmptyString
  ∨ os_Getenv environ envKeyValue ≠ EmptyString →
  connectionStringFromEnvironment environ namespace path
  = composed namespace (os_Getenv environ envKeyName)
             (os_Getenv environ envKeyValue) path.
Proof.
  intros Hset. unfold connectionStringFromEnvironment.
  assert (negb (os_Getenv environ envKeyName =? EmptyString)
          || negb (os_Getenv environ envKeyValue =? EmptyString) = true) as ->;
    [|reflexivity].
  destruct Hset as [Hk|Hk]; apply eqb_false_iff in Hk; rewrite Hk; simpl;
    [reflexivity | apply orb_true_r].
Qed.

(** C10. As soon as the key name or the key value is set, the
    connection string of the environment is ignored and a connection
    string is composed from the name and the value as they are, empty
    or not. *)
Theorem connectionStringFromEnvironment_key_set
    (environ : gmap string string) (namespace path : string) :
  os_Getenv environ envKeyName ≠ EmptyString
  ∨ os_Getenv environ envKeyValue ≠ EmptyString →
  connectionStringFromEnvironment environ namespace path
  = composed namespace (os_Getenv environ envKeyName)
             (os_Getenv environ envKeyValue) path
  ∧ ∀ connStr,
      connectionStringFromEnvironment (<[envConnStr := connStr]> environ) namespace path
      = connectionStringFromEnvironment environ namespace path.
Proof.
  intros Hset.
  assert (negb (os_Getenv environ envKeyName =? EmptyString)
          || negb (os_Getenv environ envKeyValue =? EmptyString) = true) as Hb.
  { destruct Hset as [Hk|Hk]; apply eqb_false_iff in Hk; rewrite Hk; simpl;
      [reflexivity | apply orb_true_r]. }
  split.
  - unfold connectionStringFromEnvironment. rewrite Hb. reflexivity.
  - intros connStr. unfold connectionStringFromEnvironment.
    rewrite !(os_Getenv_insert_ne environ envConnStr envKeyName) by discriminate.
    rewrite !(os_Getenv_insert_ne environ envConnStr envKeyValue) by discriminate.
    rewrite Hb. reflexivity.
Qed.

(** C9. The connection string (composed from the key pair when both
    halves are set) is bound first; the binding through Azure Active
    Directory is attempted only when that fails, on the namespace the
    first attempt left; the first success ends the selection; when both
    fail, the message of the error holds the messages of both
    failures. *)
Theorem namespaceFromEnvironment_fallback
    (environ : gmap string string) (entityID : AzureResourceID)
    (ns : ServiceBusNamespace) :
  let connStr :=
    connectionStringFromEnvironment environ (Namespace entityID) (entityPath entityID) in
  let sas := NamespaceWithConnectionString connStr ns in
  let aad := NamespaceWithEnvironmentBinding environ (Namespace entityID) sas.2 in
  (os_Getenv environ envKeyName ≠ EmptyString →
   os_Getenv environ envKeyValue ≠ EmptyString →
   connStr = composed (Namespace entityID) (os_Getenv environ envKeyName)
                      (os_Getenv environ envKeyValue) (entityPath entityID))
  ∧ (sas.1 = None →
     namespaceFromEnvironment environ entityID ns
     = (None, sas.2, [CallWithConnectionString connStr]))
  ∧ (∀ sasErr, sas.1 = Some sasErr →
     (namespaceFromEnvironment environ entityID ns).2
     = [CallWithConnectionString connStr;
        CallWithEnvironmentBinding (Namespace entityID)]
     ∧ (namespaceFromEnvironment environ entityID ns).1.2 = aad.2
     ∧ (aad.1 = None → (namespaceFromEnvironment environ entityID ns).1.1 = None)
     ∧ (∀ aadErr, aad.1 = Some aadErr →
        ∃ err, (namespaceFromEnvironment environ entityID ns).1.1 = Some err
               ∧ Error err
                 = "neither Azure Active Directory nor SAS token provider could be built - AAD error: "
                   +:+ Error aadErr +:+ ", SAS error: " +:+ Error sasErr)).
Proof.
  intros connStr sas aad. split; [|split].
  - intros Hn Hv. subst connStr.
    apply (connectionStringFromEnvironment_composed environ); auto.
  - intros Hsas. unfold namespaceFromEnvironment. fold connStr.
    subst sas. destruct (NamespaceWithConnectionString connStr ns) as [e1 ns1].
    simpl in Hsas. subst e1. reflexivity.
  - intros sasErr Hsas. unfold namespaceFromEnvironment. fold connStr.
    subst aad sas. destruct (NamespaceWithConnectionString connStr ns) as [e1 ns1].
    simpl in Hsas. subst e1. simpl.
    destruct (NamespaceWithEnvironmentBinding environ (Namespace entityID) ns1)
      as [e2 ns2]. simpl.
    destruct e2 as [aadErr|]; simpl.
    + repeat split; try discriminate.
      intros aadErr' [= <-]. eexists. split; [reflexivity|]. reflexivity.
    + repeat split. intros aadErr' Habs. discriminate Habs.
Qed.
End ConfigurationFacts.

(** * Properties of the message handler *)

Section HandlerFacts.
Context `{!GoRuntime} `{!Collaborators}.
Local Open Scope list_scope.

Lemma SetDataSchema_empty_idem e :
  Event_SetDataSchema EmptyString (Event_SetDataSchema EmptyString e)
  = Event_SetDataSchema EmptyString e.
Proof. reflexivity. Qed.

Lemma sanitized_cases validErrs e :
  sanitized validErrs e = e
  ∨ sanitized validErrs e = Event_SetDataSchema EmptyString e.
Proof. unfold sanitized. case_bool_decide; auto. Qed.

Lemma sanitized_ID validErrs e : Event_ID (sanitized validErrs e) = Event_ID e.
Proof. unfold sanitized. case_bool_decide; reflexivity. Qed.

Lemma corrected_ID e : Event_ID (corrected e) = Event_ID e.
Proof. unfold corrected. destruct (Event_Validate e); [apply sanitized_ID | done]. Qed.

(** Correcting twice is correcting once: whatever the second validation
    says, there is nothing left for the sanitizer to change. *)
Lemma corrected_idem e : corrected (corrected e) = corrected e.
Proof.
  destruct (Event_Validate e) as [v|] eqn:Ev.
  - assert (corrected e = sanitized v e) as Hc
      by (unfold corrected; rewrite Ev; done).
    rewrite Hc. destruct (sanitized_cases v e) as [Hs|Hs]; rewrite Hs.
    + rewrite Hc. exact Hs.
    + unfold corrected.
      destruct (Event_Validate (Event_SetDataSchema EmptyString e)) as [v'|]; [|done].
      destruct (sanitized_cases v' (Event_SetDataSchema EmptyString e)) as [->| ->]; done.
  - assert (corrected e = e) as Hc by (unfold corrected; rewrite Ev; done).
    rewrite !Hc. done.
Qed.

Lemma dataschema_in_keys (validErrs : gmap string error) :
  "dataschema" ∈ map fst (map_to_list validErrs) ↔ is_Some (validErrs !! "dataschema").
Proof.
  rewrite list_elem_of_fmap. split.
  - intros [[k x] [Hk Hin]]. simpl in Hk. subst k.
    apply elem_of_map_to_list in Hin. eauto.
  - intros [x Hx]. exists ("dataschema", x). split; [done|].
    by apply elem_of_map_to_list.
Qed.

(** The loop of [sanitizeEvent], whatever the order of the attributes:
    the event is stored with its [dataschema] cleared when the attribute
    is listed, and the store is left alone otherwise. *)
Lemma sanitizeEvent_range_run attrs p : ∀ s e,
  heap s !! p = Some e →
  sanitizeEvent_range attrs p s
  = Done tt {| heap := if bool_decide ("dataschema" ∈ attrs)
                       then <[p := Event_SetDataSchema EmptyString e]> (heap s)
                       else heap s;
               world := world s; calls := calls s |}.
Proof.
  induction attrs as [|attr rest IH]; intros s e Hp.
  - cbn [sanitizeEvent_range]. unfold ret.
    rewrite bool_decide_false by apply not_elem_of_nil.
    destruct s; reflexivity.
  - cbn [sanitizeEvent_range]. unfold bind at 1.
    destruct (String.eqb_spec attr "dataschema") as [->|Hne].
    + unfold bind at 1, deref. rewrite Hp. unfold assign.
      erewrite IH by (cbn [heap]; apply lookup_insert_eq).
      cbn [heap world calls]. rewrite insert_insert_eq.
      rewrite (bool_decide_true ("dataschema" ∈ "dataschema" :: rest))
        by apply list_elem_of_here.
      case_bool_decide; reflexivity.
    + unfold ret. rewrite (IH s e Hp).
      assert (bool_decide ("dataschema" ∈ attr :: rest)
              = bool_decide ("dataschema" ∈ rest)) as ->; [|done].
      apply bool_decide_ext. rewrite elem_of_cons.
      split; [intros [Heq|Hin]; [congruence|done] | intros Hin; by right].
Qed.

Lemma sanitizeEvent_run validErrs p s e :
  heap s !! p = Some e →
  sanitizeEvent validErrs p s
  = Done p {| heap := <[p := sanitized validErrs e]> (heap s);
              world := world s; calls := calls s |}.
Proof.
  intros Hp. unfold sanitizeEvent, bind.
  rewrite (sanitizeEvent_range_run _ p s e Hp). unfold ret, sanitized.
  rewrite (bool_decide_ext _ _ (dataschema_in_keys validErrs)).
  case_bool_decide; [done|]. rewrite insert_id; done.
Qed.

(** [sendCloudEvent] hands the stored event to the sink and returns the
    result when it is not an acknowledgment, nil when it is. *)
Lemma sendCloudEvent_run p s e :
  heap s !! p = Some e →
  sendCloudEvent p s
  = Done (if IsACK (Client_Send e (world s)).1 then None
          else (Client_Send e (world s)).1)
         {| heap := heap s; world := (Client_Send e (world s)).2;
            calls := calls s ++ [CallSend e (Client_Send e (world s)).1] |}.
Proof.
  intros Hp. unfold sendCloudEvent, bind, deref. rewrite Hp.
  unfold call_Send. destruct (Client_Send e (world s)) as [r w]. simpl.
  destruct (IsACK r); reflexivity.
Qed.
Lemma append_assoc (a b c : string) : (a +:+ b) +:+ c = a +:+ b +:+ c.
Proof.
  induction a as [|ch a IH]; [done|].
  change (String ch ((a +:+ b) +:+ c) = String ch (a +:+ b +:+ c)).
  by rewrite IH.
Qed.

(** The value of [fmt.Errorf] on a format with one [%s] and a final
    [%w]. *)
Lemma Errorf_w_s (a b c : string) (err : error) :
  Errorf_w (a +:+ b +:+ c) err = wrapError (a +:+ b +:+ c +:+ Error err) err.
Proof. unfold Errorf_w. by rewrite !append_assoc. Qed.

Lemma ErrorBatch_app sends1 sends2 :
  ErrorBatch (sends1 ++ sends2) = ErrorBatch sends1 ++ ErrorBatch sends2.
Proof. unfold ErrorBatch, failed_sends. by rewrite omap_app, map_app. Qed.

Lemma ErrorBatch_one e result :
  ErrorBatch [(e, result)]
  = match result with
    | Some cause =>
        if ResultIs_ACK cause then []
        else [Errorf_w ("failed to send event with ID " +:+ Event_ID e +:+ ": ") cause]
    | None => []
    end.
Proof.
  unfold ErrorBatch, failed_sends. cbn [omap list_omap fst snd].
  destruct result as [cause|]; [|done]. destruct (ResultIs_ACK cause); done.
Qed.

Lemma send_all_cons e es w :
  send_all (e :: es) w
  = (((e, (Client_Send e w).1) :: (send_all es (Client_Send e w).2).1),
     (send_all es (Client_Send e w).2).2).
Proof.
  cbn [send_all]. destruct (Client_Send e w) as [r w1]. cbn [fst snd].
  destruct (send_all es w1) as [sends w2]. done.
Qed.

(** Validation failed or not, the store holds the corrected event
    afterwards. *)
Lemma sanitize_on_failure_run p s v :
  heap s !! p = Some v →
  match Event_Validate v with
  | Some err => sanitizeEvent err p
  | None => ret p
  end s
  = Done p {| heap := <[p := corrected v]> (heap s);
              world := world s; calls := calls s |}.
Proof.
  intros Hp. unfold corrected. destruct (Event_Validate v) as [validErrs|].
  - by apply sanitizeEvent_run.
  - unfold ret. rewrite insert_id by done. by destruct s.
Qed.

(** One iteration of the loop, on a pointer to [v]: [v] is validated
    once, its corrected form is stored and sent, and the failure, if
    any, is appended. *)
Lemma handleMessage_iter_run p sendErrs s v :
  heap s !! p = Some v →
  handleMessage_iter p sendErrs s
  = Done (sendErrs ++ ErrorBatch [(corrected v, (Client_Send (corrected v) (world s)).1)])
         {| heap := <[p := corrected v]> (heap s);
            world := (Client_Send (corrected v) (world s)).2;
            calls := calls s ++ [CallValidate v;
                                 CallSend (corrected v)
                                          (Client_Send (corrected v) (world s)).1] |}.
Proof.
  intros Hp. unfold handleMessage_iter.
  unfold bind at 1, deref at 1. rewrite Hp.
  unfold bind at 1, call_Validate.
  unfold bind at 1.
  rewrite (sanitize_on_failure_run p _ v) by (cbn [heap]; done).
  cbn [heap world calls].
  unfold bind at 1.
  rewrite (sendCloudEvent_run p _ (corrected v)) by (cbn [heap]; apply lookup_insert_eq).
  cbn [heap world calls].
  rewrite ErrorBatch_one. rewrite <- (assoc_L (++)). cbn [app].
  destruct (Client_Send (corrected v) (world s)) as [result w]. cbn [fst snd].
  destruct result as [cause|]; cbn [IsACK].
  - destruct (ResultIs_ACK cause); cbn [negb].
    + unfold ret. by rewrite (right_id_L [] (++)).
    + unfold bind, deref. cbn [heap]. rewrite lookup_insert_eq. done.
  - unfold ret. by rewrite (right_id_L [] (++)).
Qed.
Lemma corrected_alias v e : v = e ∨ v = corrected e → corrected v = corrected e.
Proof. intros [->| ->]; [done | apply corrected_idem]. Qed.

(** The whole loop. Each pointer of [events] refers to the event of [es]
    at the same place, or to its corrected form (an earlier alias was
    already sanitized). The loop does not panic, sends the corrected
    form of every event in order, and appends the failures. Afterwards
    the store holds the corrected form of every event of [events]. *)
Lemma handleMessage_range_run events : ∀ es s sendErrs,
  Forall2 (λ p e, ∃ v, heap s !! p = Some v ∧ (v = e ∨ v = corrected e)) events es →
  ∃ s' new,
    handleMessage_range events sendErrs s
    = Done (sendErrs ++ ErrorBatch (send_all (map corrected es) (world s)).1) s'
    ∧ calls s' = calls s ++ new
    ∧ dispatch_calls es (send_all (map corrected es) (world s)).1 new
    ∧ world s' = (send_all (map corrected es) (world s)).2
    ∧ ∀ q, heap s' !! q
           = if bool_decide (q ∈ events) then corrected <$> heap s !! q
             else heap s !! q.
Proof.
  induction events as [|p ps IH]; intros es s sendErrs Hall.
  - apply Forall2_nil_inv_l in Hall as ->.
    exists s, []. cbn [handleMessage_range map send_all fst snd]. unfold ret.
    split; [|split; [|split; [|split]]].
    + unfold ErrorBatch, failed_sends. cbn. by rewrite (right_id_L [] (++)).
    + by rewrite (right_id_L [] (++)).
    + constructor.
    + done.
    + intros q. by rewrite bool_decide_false by apply not_elem_of_nil.
  - apply Forall2_cons_inv_l in Hall as (e & es' & (v & Hp & Hv) & Hrest & ->).
    pose proof (corrected_alias v e Hv) as Hce.
    cbn [handleMessage_range]. unfold bind at 1.
    rewrite (handleMessage_iter_run p sendErrs s v Hp). rewrite Hce.
    set (r := (Client_Send (corrected e) (world s)).1).
    set (w1 := (Client_Send (corrected e) (world s)).2).
    set (s1 := {| heap := <[p := corrected e]> (heap s); world := w1;
                  calls := calls s ++ [CallValidate v; CallSend (corrected e) r] |}).
    destruct (IH es' s1 (sendErrs ++ ErrorBatch [(corrected e, r)]))
      as (s' & new & Hrun & Hcalls & Hdisp & Hworld & Hheap).
    { eapply Forall2_impl; [exact Hrest|].
      intros q e' (vq & Hq & Hvq). cbn [heap s1].
      destruct (decide (p = q)) as [<-|Hne].
      - exists (corrected e). rewrite lookup_insert_eq. split; [done|].
        right. rewrite Hp in Hq. injection Hq as <-.
        rewrite <- Hce. by apply corrected_alias.
      - exists vq. rewrite lookup_insert_ne by done. done. }
    exists s', ([CallValidate v; CallSend (corrected e) r] ++ new).
    cbn [map]. rewrite send_all_cons. fold r w1. cbn [fst snd].
    cbn [world s1] in Hrun, Hdisp, Hworld.
    split; [|split; [|split; [|split]]].
    + rewrite Hrun. f_equal.
      rewrite <- (assoc_L (++)). f_equal.
      by rewrite <- ErrorBatch_app.
    + rewrite Hcalls. cbn [calls s1]. by rewrite <- (assoc_L (++)).
    + cbn [app]. by constructor.
    + done.
    + intros q. rewrite Hheap. cbn [heap s1].
      destruct (decide (q = p)) as [->|Hne].
      * rewrite lookup_insert_eq, Hp.
        rewrite (bool_decide_true (p ∈ p :: ps)) by apply list_elem_of_here.
        cbn [fmap option_fmap option_map]. rewrite Hce.
        case_bool_decide; [|done]. cbn. by rewrite corrected_idem.
      * rewrite lookup_insert_ne by done.
        apply (f_equal (λ b : bool, if b then corrected <$> heap s !! q else heap s !! q)).
        apply bool_decide_ext. rewrite elem_of_cons.
        split; [intros Hin; by right | intros [Heq|Hin]; [congruence|done]].
Qed.
Lemma completions_app cs1 cs2 :
  completions (cs1 ++ cs2) = completions cs1 + completions cs2.
Proof. unfold completions. by rewrite filter_app, length_app. Qed.

Lemma dispatches_app cs1 cs2 :
  dispatches (cs1 ++ cs2) = dispatches cs1 + dispatches cs2.
Proof. unfold dispatches. by rewrite filter_app, length_app. Qed.

Lemma dispatch_calls_counts es sends new :
  dispatch_calls es sends new →
  completions new = 0 ∧ dispatches new = length es ∧ length sends = length es.
Proof.
  induction 1 as [|e v result es sends cs Hv Hd (IHc & IHd & IHl)]; [done|].
  change (CallValidate v :: CallSend (corrected e) result :: cs)
    with ([CallValidate v; CallSend (corrected e) result] ++ cs).
  rewrite completions_app, dispatches_app, IHc, IHd. cbn [length]. rewrite IHl.
  done.
Qed.

Lemma send_all_events es : ∀ w, (send_all es w).1.*1 = es.
Proof.
  induction es as [|e es IH]; intros w; [done|].
  rewrite send_all_cons. cbn [fst fmap list_fmap]. by rewrite IH.
Qed.

Lemma send_all_by_event es :
  answers_by_event → ∀ w w', (send_all es w).1 = (send_all es w').1.
Proof.
  intros Hans. induction es as [|e es IH]; intros w w'; [done|].
  rewrite !send_all_cons. cbn [fst]. rewrite (Hans e w w'). f_equal. apply IH.
Qed.

(** The batch, send by send. *)
Lemma ErrorBatch_concat sends :
  ErrorBatch sends
  = concat (map (λ er, if IsACK er.2 then []
                       else match er.2 with
                            | Some cause =>
                                [wrapError ("failed to send event with ID "
                                            +:+ Event_ID er.1 +:+ ": "
                                            +:+ Error cause) cause]
                            | None => []
                            end) sends).
Proof.
  induction sends as [|[e result] sends IH]; [done|].
  change ((e, result) :: sends) with ([(e, result)] ++ sends).
  rewrite ErrorBatch_app, ErrorBatch_one, IH. cbn [app map concat fst snd].
  f_equal. destruct result as [cause|]; [|done]. cbn [IsACK].
  destruct (ResultIs_ACK cause); [done|]. by rewrite Errorf_w_s.
Qed.

Lemma ErrorBatch_nil_iff sends :
  ErrorBatch sends = [] ↔ Forall (λ er, IsACK er.2 = true) sends.
Proof.
  induction sends as [|[e result] sends IH].
  - split; [constructor | done].
  - change ((e, result) :: sends) with ([(e, result)] ++ sends).
    rewrite ErrorBatch_app, ErrorBatch_one. cbn [app]. rewrite Forall_cons. cbn [snd].
    destruct result as [cause|]; cbn [IsACK].
    + destruct (ResultIs_ACK cause); cbn [app].
      * rewrite IH. tauto.
      * split; [discriminate | intros [Habs _]; discriminate Habs].
    + cbn [app]. rewrite IH. tauto.
Qed.

Lemma failed_sends_elem sends e cause :
  (e, Some cause) ∈ sends → ResultIs_ACK cause = false →
  (e, cause) ∈ failed_sends sends.
Proof.
  intros Hin Hnack. unfold failed_sends. apply list_elem_of_omap.
  exists (e, Some cause). split; [done|]. cbn [fst snd]. by rewrite Hnack.
Qed.

Lemma call_Process_run msg s events err h1 w1 :
  MessageProcessor_Process msg (heap s) (world s) = (events, err, h1, w1) →
  call_Process msg s
  = Done (events, err)
         {| heap := h1; world := w1; calls := calls s ++ [CallProcess msg] |}.
Proof. intros Hproc. unfold call_Process. by rewrite Hproc. Qed.

(** What [handleMessage] does up to the end of the loop, when the
    processor succeeded. *)
Lemma handleMessage_dispatch msg s events h1 w1 es :
  MessageProcessor_Process msg (heap s) (world s) = (events, None, h1, w1) →
  Forall2 (λ p e, h1 !! p = Some e) events es →
  ∃ s2 new,
    handleMessage_range events []
      {| heap := h1; world := w1; calls := calls s ++ [CallProcess msg] |}
    = Done (ErrorBatch (send_all (map corrected es) w1).1) s2
    ∧ handleMessage (Some msg) s
      = (if negb (length (ErrorBatch (send_all (map corrected es) w1).1) =? 0)%nat
         then ret (Some (Errorf_w "sending events to the sink: "
                           (errList (ErrorBatch (send_all (map corrected es) w1).1))))
         else messageCompleteFunc msg) s2
    ∧ calls s2 = calls s ++ [CallProcess msg] ++ new
    ∧ dispatch_calls es (send_all (map corrected es) w1).1 new
    ∧ world s2 = (send_all (map corrected es) w1).2
    ∧ ∀ q, heap s2 !! q
           = if bool_decide (q ∈ events) then corrected <$> h1 !! q else h1 !! q.
Proof.
  intros Hproc Hes.
  destruct (handleMessage_range_run events es
              {| heap := h1; world := w1; calls := calls s ++ [CallProcess msg] |} [])
    as (s2 & new & Hrun & Hcalls & Hdisp & Hworld & Hheap).
  { eapply Forall2_impl; [exact Hes|]. intros q e Hq. exists e. cbn [heap]. auto. }
  cbn [heap world calls app] in *.
  exists s2, new. split; [exact Hrun|]. split; [|split; [|split; [|split]]]; try done.
  - unfold handleMessage. unfold bind at 1.
    rewrite (call_Process_run msg s events None h1 w1 Hproc).
    unfold bind at 1. rewrite Hrun. done.
  - rewrite Hcalls. by rewrite <- (assoc_L (++)).
Qed.
(** C4. A nil message is a success without any effect: no error, no
    call to the processor, the sink or the completion handle, and the
    state is the one the handler started from. *)
Theorem handleMessage_nil (s : State) : handleMessage None s = Done None s.
Proof. reflexivity. Qed.

(** C8. When the processor fails, the handler returns at once: the only
    call made is the one to the processor, no event is sent, the
    completion handle is not invoked, and the error wraps the
    processor's error behind a message that holds the ID of the
    message. *)
Theorem handleMessage_processing_error (msg : Message) (s : State)
    (events : list ptr) (err : error) (h1 : gmap ptr Event) (w1 : World) :
  MessageProcessor_Process msg (heap s) (world s) = (events, Some err, h1, w1) →
  ∃ s',
    handleMessage (Some msg) s
    = Done (Some (wrapError ("processing Service Bus message with ID "
                             +:+ Message_ID msg +:+ ": " +:+ Error err) err)) s'
    ∧ calls s' = calls s ++ [CallProcess msg]
    ∧ dispatches (calls s') = dispatches (calls s)
    ∧ completions (calls s') = completions (calls s).
Proof.
  intros Hproc.
  exists {| heap := h1; world := w1; calls := calls s ++ [CallProcess msg] |}.
  split; [|split; [done|split]].
  - unfold handleMessage. unfold bind at 1.
    rewrite (call_Process_run msg s events (Some err) h1 w1 Hproc).
    unfold ret. by rewrite Errorf_w_s.
  - cbn [calls]. rewrite dispatches_app.
    replace (dispatches [CallProcess msg]) with 0 by reflexivity. lia.
  - cbn [calls]. rewrite completions_app.
    replace (completions [CallProcess msg]) with 0 by reflexivity. lia.
Qed.

(** C3. The loop takes the events in the order of the slice. Each one
    is validated and its corrected form is handed to the sink, whatever
    happened to the events before it; the sends are as many as the
    events. A send is a success exactly when its result is an
    acknowledgment; every other send adds, at the end of the batch, an
    entry that wraps the result behind a message with the ID of the
    event, which is the ID the event had before correction. *)
Theorem handleMessage_range_in_order
    (events : list ptr) (es : list Event) (s : State) (sendErrs : list error) :
  Forall2 (λ p e, heap s !! p = Some e) events es →
  ∃ s' new sends,
    handleMessage_range events sendErrs s = Done (sendErrs ++ ErrorBatch sends) s'
    ∧ sends = (send_all (map corrected es) (world s)).1
    ∧ sends.*1 = map corrected es
    ∧ Forall2 (λ e er, Event_ID er.1 = Event_ID e) es sends
    ∧ calls s' = calls s ++ new
    ∧ dispatch_calls es sends new
    ∧ dispatches new = length events
    ∧ ErrorBatch sends
      = concat (map (λ er, if IsACK er.2 then []
                           else match er.2 with
                                | Some cause =>
                                    [wrapError ("failed to send event with ID "
                                                +:+ Event_ID er.1 +:+ ": "
                                                +:+ Error cause) cause]
                                | None => []
                                end) sends).
Proof.
  intros Hes.
  destruct (handleMessage_range_run events es s sendErrs)
    as (s' & new & Hrun & Hcalls & Hdisp & _ & _).
  { eapply Forall2_impl; [exact Hes|]. intros q e Hq. exists e. auto. }
  exists s', new, (send_all (map corrected es) (world s)).1.
  pose proof (send_all_events (map corrected es) (world s)) as Hev.
  split; [exact Hrun|]. split; [done|]. split; [exact Hev|].
  split; [|split; [exact Hcalls|split; [exact Hdisp|split]]].
  - apply Forall2_fmap_r with (f := fst) (P := λ e e', Event_ID e' = Event_ID e).
    rewrite Hev. apply Forall2_fmap_r, Forall_Forall2_diag, Forall_forall.
    intros e _. apply corrected_ID.
  - destruct (dispatch_calls_counts _ _ _ Hdisp) as (_ & -> & _).
    symmetry. by eapply Forall2_length.
  - apply ErrorBatch_concat.
Qed.

(** C7. An event that fails validation is validated once and sent in
    its sanitized form, whether that form is valid or not: the calls of
    the iteration are the validation of the event as it was and the send
    of the sanitized event. The sanitizer itself makes no call. It
    clears [dataschema] when the validation error lists it, in whatever
    order the attributes are visited, and changes no other attribute; an
    event whose validation error does not list [dataschema] is left as
    it was. *)
Theorem handleMessage_iter_invalid
    (p : ptr) (e : Event) (validErrs : ValidationError)
    (s : State) (sendErrs : list error) :
  heap s !! p = Some e →
  Event_Validate e = Some validErrs →
  let sent := sanitized validErrs e in
  let result := (Client_Send sent (world s)).1 in
  handleMessage_iter p sendErrs s
  = Done (sendErrs ++ ErrorBatch [(sent, result)])
         {| heap := <[p := sent]> (heap s);
            world := (Client_Send sent (world s)).2;
            calls := calls s ++ [CallValidate e; CallSend sent result] |}
  ∧ sanitizeEvent validErrs p s
    = Done p {| heap := <[p := sent]> (heap s); world := world s; calls := calls s |}
  ∧ (∀ attrs, attrs ≡ₚ map fst (map_to_list validErrs) →
     sanitizeEvent_range attrs p s
     = Done tt {| heap := <[p := sent]> (heap s); world := world s; calls := calls s |})
  ∧ (is_Some (validErrs !! "dataschema") →
     sent = Event_SetDataSchema EmptyString e ∧ Event_DataSchema sent = None)
  ∧ (validErrs !! "dataschema" = None → sent = e)
  ∧ Event_ID sent = Event_ID e
  ∧ Event_Source sent = Event_Source e
  ∧ Event_Type sent = Event_Type e
  ∧ Event_Time sent = Event_Time e
  ∧ Event_DataContentType sent = Event_DataContentType e
  ∧ Event_Data sent = Event_Data e.
Proof.
  intros Hp Hv sent result.
  assert (corrected e = sent) as Hc by (unfold corrected; by rewrite Hv).
  split; [|split; [|split; [|split; [|split]]]].
  - rewrite (handleMessage_iter_run p sendErrs s e Hp). by rewrite Hc.
  - by apply sanitizeEvent_run.
  - intros attrs Hperm. rewrite (sanitizeEvent_range_run attrs p s e Hp).
    assert (bool_decide ("dataschema" ∈ attrs)
            = bool_decide (is_Some (validErrs !! "dataschema"))) as ->.
    { apply bool_decide_ext. rewrite Hperm. apply dataschema_in_keys. }
    subst sent. unfold sanitized. case_bool_decide; [done|].
    by rewrite insert_id.
  - intros Hsome. subst sent. unfold sanitized. by rewrite bool_decide_true.
  - intros Hnone. subst sent. unfold sanitized. rewrite bool_decide_false; [done|].
    rewrite Hnone. by intros [? ?].
  - subst sent. unfold sanitized. case_bool_decide; done.
Qed.
Lemma Forall2_elem_of_l {A B} (P : A → B → Prop) (l : list A) (k : list B) :
  Forall2 P l k → Forall2 (λ x y, x ∈ l ∧ P x y) l k.
Proof.
  intros HP. apply Forall2_same_length_lookup.
  apply Forall2_same_length_lookup in HP as [Hlen HP].
  split; [done|]. intros i x y Hx Hy. split; [|by eapply HP].
  apply list_elem_of_lookup. eauto.
Qed.

(** C1. The processor gave the events [es] and the sink acknowledged
    every one of them: the batch is empty, the completion handle of the
    message is invoked once, after the last send, and what the handler
    returns is what the completion handle returned. *)
Theorem handleMessage_all_acknowledged (msg : Message) (s : State)
    (events : list ptr) (h1 : gmap ptr Event) (w1 : World) (es : list Event) :
  MessageProcessor_Process msg (heap s) (world s) = (events, None, h1, w1) →
  Forall2 (λ p e, h1 !! p = Some e) events es →
  let sends := (send_all (map corrected es) w1).1 in
  let w2 := (send_all (map corrected es) w1).2 in
  Forall (λ er, IsACK er.2 = true) sends →
  ErrorBatch sends = []
  ∧ ∃ s' new,
      handleMessage (Some msg) s = Done (Message_Complete msg w2).1 s'
      ∧ calls s' = calls s ++ [CallProcess msg] ++ new
                   ++ [CallComplete msg (Message_Complete msg w2).1]
      ∧ dispatch_calls es sends new
      ∧ completions (calls s') = completions (calls s) + 1
      ∧ world s' = (Message_Complete msg w2).2.
Proof.
  intros Hproc Hes sends w2 Hack.
  assert (ErrorBatch sends = []) as Hnil by (by apply ErrorBatch_nil_iff).
  split; [exact Hnil|].
  destruct (handleMessage_dispatch msg s events h1 w1 es Hproc Hes)
    as (s2 & new & _ & Hrun & Hcalls & Hdisp & Hworld & _).
  fold sends in Hrun, Hdisp. fold w2 in Hworld.
  rewrite Hnil in Hrun. cbn [length Nat.eqb negb] in Hrun.
  unfold messageCompleteFunc in Hrun. rewrite Hworld in Hrun.
  destruct (Message_Complete msg w2) as [result w3] eqn:Hcomplete.
  cbn [fst snd].
  eexists _, new. split; [exact Hrun|]. cbn [calls world].
  split; [|split; [exact Hdisp|split; [|done]]].
  - rewrite Hcalls. by rewrite <- !(assoc_L (++)).
  - rewrite Hcalls, !completions_app.
    destruct (dispatch_calls_counts _ _ _ Hdisp) as (-> & _ & _).
    replace (completions [CallProcess msg]) with 0 by reflexivity.
    replace (completions [CallComplete msg result]) with 1 by reflexivity.
    lia.
Qed.

Lemma append_empty_r (a : string) : a +:+ EmptyString = a.
Proof.
  induction a as [|ch a IH]; [done|].
  change (String ch (a +:+ EmptyString) = String ch a). by rewrite IH.
Qed.

(** The elements of a slice under [%q] are joined as [strings.Join] joins
    them with one space, which is [String.concat] of the library. *)
Lemma join_space_concat (l : list string) : join_space l = String.concat " " l.
Proof.
  induction l as [|a l IH]; [done|]. destruct l as [|b l]; [done|].
  change (a +:+ " " +:+ join_space (b :: l) = a +:+ " " +:+ String.concat " " (b :: l)).
  by rewrite IH.
Qed.

(** Every element of a joined list is in the text, between what comes
    before it and what comes after it. *)
Lemma concat_elem_of (sep x : string) (l : list string) :
  x ∈ l → ∃ before after, String.concat sep l = before +:+ x +:+ after.
Proof.
  induction l as [|a l IH]; intros Hin; [by apply elem_of_nil in Hin|].
  destruct l as [|b l].
  - apply list_elem_of_singleton in Hin as ->. exists EmptyString, EmptyString.
    cbn [String.concat]. symmetry. apply append_empty_r.
  - apply elem_of_cons in Hin as [->|Hin].
    + exists EmptyString, (sep +:+ String.concat sep (b :: l)). reflexivity.
    + destruct (IH Hin) as (before & after & Hc).
      exists (a +:+ sep +:+ before), after.
      change (String.concat sep (a :: b :: l))
        with (a +:+ sep +:+ String.concat sep (b :: l)).
      rewrite Hc, !append_assoc. reflexivity.
Qed.

(** The quoted messages of the entries of a batch. *)
Lemma ErrorBatch_messages sends :
  map (λ x, strconv_Quote (Error x)) (ErrorBatch sends)
  = map (λ ec, strconv_Quote ("failed to send event with ID " +:+ Event_ID ec.1
                              +:+ ": " +:+ Error ec.2))
        (failed_sends sends).
Proof.
  unfold ErrorBatch. rewrite map_map. apply map_ext. intros [e cause].
  cbn [fst snd]. by rewrite Errorf_w_s.
Qed.

(** C2. The processor gave the events [es] and the sink did not
    acknowledge at least one of them: the completion handle is not
    invoked and the handler returns an error that wraps the aggregate of
    the batch. The batch has one entry for every send that was not
    acknowledged, in order, each made of the ID of the event and the
    cause. The message of the returned error is the text
    [sending events to the sink: ], an opening bracket, the quoted
    messages of the entries in order with one space between two of them,
    and a closing bracket: the quoted message of every send that failed,
    with the ID of its event and the message of its cause, is in that
    text. Running the loop again on the same pointers sends the same
    events in the same order, so that it gives the same batch whenever the
    sink gives the same answers, as does a sink whose answer depends on
    the event only. *)
Theorem handleMessage_send_failures (msg : Message) (s : State)
    (events : list ptr) (h1 : gmap ptr Event) (w1 : World) (es : list Event) :
  MessageProcessor_Process msg (heap s) (world s) = (events, None, h1, w1) →
  Forall2 (λ p e, h1 !! p = Some e) events es →
  let sends := (send_all (map corrected es) w1).1 in
  Exists (λ er, IsACK er.2 = false) sends →
  ∃ s' new,
    handleMessage (Some msg) s
    = Done (Some (wrapError ("sending events to the sink: "
                             +:+ Error (errList (ErrorBatch sends)))
                            (errList (ErrorBatch sends)))) s'
    ∧ calls s' = calls s ++ [CallProcess msg] ++ new
    ∧ dispatch_calls es sends new
    ∧ completions (calls s') = completions (calls s)
    ∧ ErrorBatch sends
      = map (λ ec, wrapError ("failed to send event with ID " +:+ Event_ID ec.1
                              +:+ ": " +:+ Error ec.2) ec.2)
            (failed_sends sends)
    ∧ failed_sends sends ≠ []
    ∧ (∀ e cause, (e, Some cause) ∈ sends → ResultIs_ACK cause = false →
       (e, cause) ∈ failed_sends sends)
    ∧ Forall2 (λ e er, er.1 = corrected e ∧ Event_ID er.1 = Event_ID e) es sends
    ∧ Error (errList (ErrorBatch sends))
      = "[" +:+ join_space (map (λ x, strconv_Quote (Error x)) (ErrorBatch sends))
        +:+ "]"
    ∧ "sending events to the sink: " +:+ Error (errList (ErrorBatch sends))
      = "sending events to the sink: ["
        +:+ String.concat " "
              (map (λ ec, strconv_Quote ("failed to send event with ID "
                                         +:+ Event_ID ec.1 +:+ ": " +:+ Error ec.2))
                   (failed_sends sends))
        +:+ "]"
    ∧ (∀ e cause, (e, Some cause) ∈ sends → ResultIs_ACK cause = false →
       ∃ before after,
         "sending events to the sink: " +:+ Error (errList (ErrorBatch sends))
         = "sending events to the sink: [" +:+ before
           +:+ strconv_Quote ("failed to send event with ID " +:+ Event_ID e
                              +:+ ": " +:+ Error cause)
           +:+ after +:+ "]")
    ∧ handleMessage_range events []
        {| heap := h1; world := w1; calls := calls s ++ [CallProcess msg] |}
      = Done (ErrorBatch sends) s'
    ∧ ∃ s'',
        handleMessage_range events [] s'
        = Done (ErrorBatch (send_all (map corrected es) (world s')).1) s''
        ∧ ((send_all (map corrected es) (world s')).1 = sends →
           handleMessage_range events [] s' = Done (ErrorBatch sends) s'')
        ∧ (answers_by_event →
           handleMessage_range events [] s' = Done (ErrorBatch sends) s'').
Proof.
  intros Hproc Hes sends Hfail.
  destruct (handleMessage_dispatch msg s events h1 w1 es Hproc Hes)
    as (s2 & new & Hloop & Hrun & Hcalls & Hdisp & Hworld & Hheap).
  fold sends in Hloop, Hrun, Hdisp.
  assert (ErrorBatch sends ≠ []) as Hne.
  { intros Hnil. apply ErrorBatch_nil_iff in Hnil.
    apply Exists_exists in Hfail as (er & Hin & Hnack).
    rewrite Forall_forall in Hnil. specialize (Hnil er Hin). congruence. }
  assert (negb (length (ErrorBatch sends) =? 0)%nat = true) as Hlen.
  { destruct (ErrorBatch sends); [done|reflexivity]. }
  rewrite Hlen in Hrun. unfold ret in Hrun.
  assert (Error (errList (ErrorBatch sends))
          = "[" +:+ String.concat " "
                      (map (λ ec, strconv_Quote ("failed to send event with ID "
                                                 +:+ Event_ID ec.1 +:+ ": "
                                                 +:+ Error ec.2))
                           (failed_sends sends))
            +:+ "]") as Htext.
  { rewrite <- ErrorBatch_messages, <- join_space_concat.
    destruct (ErrorBatch sends); [done|reflexivity]. }
  exists s2, new.
  split; [exact Hrun|]. split; [exact Hcalls|]. split; [exact Hdisp|].
  split; [|split; [|split; [|split; [|split; [|split; [|split; [|split; [|split]]]]]]]].
  - rewrite Hcalls, !completions_app.
    destruct (dispatch_calls_counts _ _ _ Hdisp) as (-> & _ & _).
    replace (completions [CallProcess msg]) with 0 by reflexivity. lia.
  - unfold ErrorBatch. apply map_ext. intros [e cause]. cbn [fst snd].
    apply Errorf_w_s.
  - intros Hnil. apply Hne. unfold ErrorBatch. by rewrite Hnil.
  - apply failed_sends_elem.
  - apply Forall2_fmap_r with (f := fst)
        (P := λ e e', e' = corrected e ∧ Event_ID e' = Event_ID e).
    subst sends. rewrite send_all_events.
    apply Forall2_fmap_r, Forall_Forall2_diag, Forall_forall.
    intros e _. split; [done | apply corrected_ID].
  - destruct (ErrorBatch sends); [done|reflexivity].
  - rewrite Htext. reflexivity.
  - intros e cause Hin Hnack.
    pose proof (failed_sends_elem sends e cause Hin Hnack) as Hfailed.
    apply list_elem_of_In in Hfailed.
    apply (in_map (λ ec, strconv_Quote ("failed to send event with ID "
                                        +:+ Event_ID ec.1 +:+ ": " +:+ Error ec.2)))
      in Hfailed.
    apply list_elem_of_In in Hfailed.
    destruct (concat_elem_of " " _ _ Hfailed) as (before & after & Hc).
    exists before, after. rewrite Htext, Hc. cbn [fst snd].
    rewrite !append_assoc. reflexivity.
  - exact Hloop.
  - destruct (handleMessage_range_run events es s2 [])
      as (s3 & new' & Hrerun & _).
    { eapply Forall2_impl; [exact (Forall2_elem_of_l _ _ _ Hes)|].
      intros q e [Hin Hq]. exists (corrected e). split; [|by right].
      rewrite Hheap, bool_decide_true by done. by rewrite Hq. }
    cbn [app] in Hrerun. exists s3. split; [exact Hrerun|]. split.
    + intros <-. exact Hrerun.
    + intros Hans. rewrite Hrerun. do 2 f_equal.
      apply send_all_by_event, Hans.
Qed.
End HandlerFacts.

(** * The adapter on the sample collaborators *)

Section Samples.
Local Open Scope list_scope.

Lemma sample_answers_by_event mk :
  @answers_by_event (sample_collaborators mk).
Proof.
  intros e w w'. cbn. destruct (Event_Type e =? "undeliverable"); reflexivity.
Qed.

(** The identifier of an Event Hubs entity decodes, is a queue without
    sub-resource type, and is rejected all the same. *)
Lemma parse_rejects_other_provider :
  @json_Unmarshal sample_sdk (@strconv_Quote sample_runtime eventhub_q1)
  = (None, eventhub_q1_id)
  ∧ spec_valid_entity eventhub_q1_id
  ∧ ¬ ∃ r, @parseServiceBusResourceID sample_runtime sample_sdk eventhub_q1 = inr r.
Proof.
  split; [reflexivity|]. split.
  - split; [left; reflexivity|]. split; [reflexivity | discriminate].
  - intros [r Hr]. vm_compute in Hr. discriminate Hr.
Qed.

(** The identifier of a topic subscription is accepted. *)
Lemma parseServiceBusResourceID_decoded_witness :
  @parseServiceBusResourceID sample_runtime sample_sdk topic_t1 = inr topic_t1_id.
Proof.
  destruct (@parseServiceBusResourceID_decoded sample_runtime sample_sdk
              topic_t1 topic_t1_id eq_refl) as (_ & Hok & _).
  apply Hok. split; [reflexivity|]. split; [discriminate|].
  split; [right; reflexivity|]. split; [discriminate | reflexivity].
Defined.

(** The entity paths of the sample topic subscription, of the sample
    queue and of the zero identifier. *)
Lemma entityPath_cases_witness :
  entityPath topic_t1_id = "t1/Subscriptions/sub1"
  ∧ entityPath queue_q1_id = "q1"
  ∧ entityPath zero_id = EmptyString.
Proof.
  split; [|split].
  - destruct (entityPath_cases topic_t1_id) as (_ & Ht & _). exact (Ht eq_refl).
  - destruct (entityPath_cases queue_q1_id) as (Hq & _ & _). exact (Hq eq_refl).
  - destruct (entityPath_cases zero_id) as (_ & _ & Hn).
    apply Hn; discriminate.
Defined.

(** With a key name and no key value, the connection string of the
    environment is dropped and the composed one has an empty key. *)
Lemma connectionStringFromEnvironment_key_set_witness :
  @connectionStringFromEnvironment sample_sdk key_name_only "ns1" "q1"
  = "Endpoint=sb://ns1.servicebus.windows.net;SharedAccessKeyName=RootManageSharedAccessKey;SharedAccessKey=;EntityPath=q1".
Proof.
  destruct (@connectionStringFromEnvironment_key_set sample_sdk key_name_only "ns1" "q1")
    as [Heq _].
  - left. vm_compute. discriminate.
  - rewrite Heq. reflexivity.
Defined.

(** In an empty environment both bindings fail and the error reports
    both. *)
Lemma namespaceFromEnvironment_fallback_witness :
  ∃ err,
    (@namespaceFromEnvironment sample_runtime sample_sdk ∅ queue_q1_id None).1.1
    = Some err
    ∧ @Error sample_runtime err
      = "neither Azure Active Directory nor SAS token provider could be built - AAD error: no client credentials, SAS error: connection string is malformed".
Proof.
  destruct (@namespaceFromEnvironment_fallback sample_runtime sample_sdk
              ∅ queue_q1_id None) as (_ & _ & Hfail).
  destruct (Hfail (errorString "connection string is malformed") eq_refl)
    as (_ & _ & _ & Hboth).
  exact (Hboth (errorString "no client credentials") eq_refl).
Defined.
(** A message the processor cannot interpret. *)
Lemma handleMessage_processing_error_witness :
  ∃ s',
    @handleMessage sample_runtime (sample_collaborators no_events)
      (Some message_m1) (initial_state (sample_collaborators no_events) [])
    = Done (Some (wrapError
                    "processing Service Bus message with ID m1: unsupported message body"
                    (errorString "unsupported message body"))) s'
    ∧ calls s' = [CallProcess message_m1]
    ∧ dispatches (calls s') = 0
    ∧ completions (calls s') = 0.
Proof.
  exact (@handleMessage_processing_error sample_runtime (sample_collaborators no_events)
           message_m1 (initial_state (sample_collaborators no_events) [])
           [] (errorString "unsupported message body") ∅ [] eq_refl).
Defined.

(** One event, acknowledged: the message is completed once. *)
Lemma handleMessage_all_acknowledged_witness :
  ∃ s',
    @handleMessage sample_runtime (sample_collaborators one_event)
      (Some message_m1) (initial_state (sample_collaborators one_event) [])
    = Done None s'
    ∧ completions (calls s') = 1.
Proof.
  destruct (@handleMessage_all_acknowledged sample_runtime (sample_collaborators one_event)
              message_m1 (initial_state (sample_collaborators one_event) [])
              (processed_ptrs one_event message_m1)
              (processed_heap one_event message_m1) []
              (processed one_event message_m1))
    as (_ & s' & new & Hrun & _ & _ & Hcount & _).
  - reflexivity.
  - vm_compute. repeat constructor.
  - vm_compute. repeat constructor.
  - exists s'. split; [exact Hrun | exact Hcount].
Defined.

(** Two events, the second times out: one entry in the batch, no
    completion, and the same batch when the loop runs again. *)
Lemma handleMessage_send_failures_witness :
  ∃ s' s'',
    @handleMessage sample_runtime (sample_collaborators two_events)
      (Some message_m1) (initial_state (sample_collaborators two_events) [])
    = Done (Some (wrapError
                    ("sending events to the sink: ["
                     +:+ String "034"%char
                           ("failed to send event with ID e2: timeout"
                            +:+ String "034"%char "]"))
                    (errList [wrapError "failed to send event with ID e2: timeout"
                                        (errorString "timeout")]))) s'
    ∧ completions (calls s') = 0
    ∧ @handleMessage_range sample_runtime (sample_collaborators two_events)
        (processed_ptrs two_events message_m1) [] s'
      = Done [wrapError "failed to send event with ID e2: timeout"
                        (errorString "timeout")] s''.
Proof.
  destruct (@handleMessage_send_failures sample_runtime (sample_collaborators two_events)
              message_m1 (initial_state (sample_collaborators two_events) [])
              (processed_ptrs two_events message_m1)
              (processed_heap two_events message_m1) []
              (processed two_events message_m1))
    as (s' & new & Hrun & _ & _ & Hcount & _ & _ & _ & _ & _ & Htext & _ & _ & Hagain).
  - reflexivity.
  - vm_compute. repeat constructor.
  - vm_compute. apply Exists_cons_tl, Exists_cons_hd. reflexivity.
  - destruct Hagain as (s'' & _ & _ & Hrerun).
    exists s', s''. split; [|split; [exact Hcount|]].
    + rewrite Hrun, Htext. reflexivity.
    + exact (Hrerun (sample_answers_by_event two_events)).
Defined.

(** The loop over the two events sends both and reports the second. *)
Lemma handleMessage_range_in_order_witness :
  ∃ s',
    @handleMessage_range sample_runtime (sample_collaborators two_events)
      (processed_ptrs two_events message_m1) [] two_events_state
    = Done [wrapError "failed to send event with ID e2: timeout"
                      (errorString "timeout")] s'
    ∧ dispatches (calls s') = 2.
Proof.
  destruct (@handleMessage_range_in_order sample_runtime (sample_collaborators two_events)
              (processed_ptrs two_events message_m1)
              (processed two_events message_m1) two_events_state [])
    as (s' & new & sends & Hrun & -> & _ & _ & Hcalls & _ & Hcount & _).
  - vm_compute. repeat constructor.
  - exists s'. split; [exact Hrun|]. rewrite Hcalls. exact Hcount.
Defined.

(** An event without ID and with a malformed [dataschema] is sent with
    [dataschema] cleared although it is still not valid. *)
Lemma handleMessage_iter_invalid_witness :
  @handleMessage_iter sample_runtime (sample_collaborators one_event) 0 [] anonymous_state
  = Done []
      {| heap := {[ 0 := sample_event EmptyString
                           "com.microsoft.azure.servicebus.message" None ]};
         world := ([sample_event EmptyString
                      "com.microsoft.azure.servicebus.message" None]
                   : @World (sample_collaborators one_event));
         calls := [CallValidate anonymous_event;
                   CallSend (sample_event EmptyString
                               "com.microsoft.azure.servicebus.message" None) None] |}
  ∧ @Event_Validate (sample_collaborators one_event)
      (sample_event EmptyString "com.microsoft.azure.servicebus.message" None)
    ≠ None.
Proof.
  destruct (@handleMessage_iter_invalid sample_runtime (sample_collaborators one_event)
              0 anonymous_event
              {[ "dataschema" := errorString "if present, MUST adhere to the format specified in RFC 3986";
                 "id" := errorString "MUST be a non-empty string" ]}
              anonymous_state [] eq_refl)
    as (Hrun & _).
  - reflexivity.
  - split; [|discriminate]. rewrite Hrun. reflexivity.
Defined.
(** Two pointers to the same event: the first iteration sanitizes it in
    place, the second one validates and sends what the first one left. *)
Example handleMessage_range_aliased :
  ∃ s',
    @handleMessage_range sample_runtime (sample_collaborators one_event)
      [0; 0] [] anonymous_state
    = Done [] s'
    ∧ calls s'
      = [CallValidate anonymous_event;
         CallSend (sample_event EmptyString
                     "com.microsoft.azure.servicebus.message" None) None;
         CallValidate (sample_event EmptyString
                         "com.microsoft.azure.servicebus.message" None);
         CallSend (sample_event EmptyString
                     "com.microsoft.azure.servicebus.message" None) None].
Proof. eexists. split; reflexivity. Qed.
End Samples.

Set Warnings "-clear-no-such-hyp".

(** * Further properties of the configuration code *)

Section ConfigurationMore.
Context `{!GoRuntime} `{!AzureSDK}.

Lemma append_empty_inv (a b : string) : a +:+ b = EmptyString → a = EmptyString.
Proof. destruct a; [done | discriminate]. Qed.

Lemma parse_accepts_only_entities (resIDStr : string) (r : AzureResourceID) :
  parseServiceBusResourceID resIDStr = inr r →
  json_Unmarshal (strconv_Quote resIDStr) = (None, r)
  ∧ ResourceProvider r = resourceProviderServiceBus
  ∧ Namespace r ≠ EmptyString
  ∧ spec_valid_entity r.
Proof.
  unfold parseServiceBusResourceID.
  destruct (json_Unmarshal (strconv_Quote resIDStr)) as [[derr|] resID]; [discriminate|].
  pose proof (entity_guard resID) as Hg.
  match goal with |- context [if ?g then _ else _] => destruct g end; [discriminate|].
  intros [= <-]. split; [done|]. by apply Hg.
Qed.

(** A resource ID that [parseServiceBusResourceID] returns is the one
    the decoder gave, without error, and it names the Service Bus
    provider, a namespace, and a queue or a topic subscription. *)
Theorem parseServiceBusResourceID_inr (resIDStr : string) (r : AzureResourceID) :
  parseServiceBusResourceID resIDStr = inr r →
  json_Unmarshal (strconv_Quote resIDStr) = (None, r)
  ∧ ResourceProvider r = resourceProviderServiceBus
  ∧ Namespace r ≠ EmptyString
  ∧ spec_valid_entity r.
Proof.
  unfold parseServiceBusResourceID.
  destruct (json_Unmarshal (strconv_Quote resIDStr)) as [[derr|] resID]; [discriminate|].
  match goal with
  | |- context [if ?g then _ else _] => destruct g eqn:Hguard
  end; [discriminate|].
  intros [= <-]. split; [done|]. apply entity_guard, Hguard.
Qed.

(** An error of [parseServiceBusResourceID] is the decoder's error,
    wrapped, or the fixed error of the guard; the guard is only reached
    when the decoder gave no error. *)
Theorem parseServiceBusResourceID_inl (resIDStr : string) (err : error) :
  parseServiceBusResourceID resIDStr = inl err →
  (∃ derr, (json_Unmarshal (strconv_Quote resIDStr)).1 = Some derr
           ∧ err = wrapError ("deserializing resource ID string: " +:+ Error derr) derr)
  ∨ ((json_Unmarshal (strconv_Quote resIDStr)).1 = None
     ∧ err = errorString "resource ID does not refer to a Service Bus entity"
     ∧ ¬ (ResourceProvider (json_Unmarshal (strconv_Quote resIDStr)).2
          = resourceProviderServiceBus
          ∧ Namespace (json_Unmarshal (strconv_Quote resIDStr)).2 ≠ EmptyString
          ∧ spec_valid_entity (json_Unmarshal (strconv_Quote resIDStr)).2)).
Proof.
  unfold parseServiceBusResourceID.
  destruct (json_Unmarshal (strconv_Quote resIDStr)) as [[derr|] resID]; cbn [fst snd].
  - intros [= <-]. left. eauto.
  - pose proof (entity_guard resID) as Hg.
    match goal with |- context [if ?g then _ else _] => destruct g end; [|discriminate].
    intros [= <-]. right. split; [done|]. split; [done|].
    intros Hs. apply Hg in Hs. discriminate Hs.
Qed.

(** The entity path of a parsed resource ID never comes from the default
    case of [entityPath]: it is the name of the queue, or the name of the
    topic, [/Subscriptions/] and the name of the subscription. *)
Theorem entityPath_parsed (resIDStr : string) (r : AzureResourceID) :
  parseServiceBusResourceID resIDStr = inr r →
  (ResourceType r = resourceTypeQueues
   ∧ SubResourceType r = EmptyString
   ∧ entityPath r = ResourceName r)
  ∨ (ResourceType r = resourceTypeTopics
     ∧ SubResourceType r = resourceTypeSubscriptions
     ∧ entityPath r = ResourceName r +:+ "/Subscriptions/" +:+ SubResourceName r).
Proof.
  intros Hparse.
  destruct (parse_accepts_only_entities resIDStr r Hparse)
    as (_ & _ & _ & [Hq|Ht] & Hsubq & Hsubt).
  - left. split; [done|]. split; [auto|]. unfold entityPath. by rewrite Hq.
  - right. split; [done|]. split; [auto|]. unfold entityPath. by rewrite Ht.
Qed.

(** The entity path is empty in two cases only: a queue whose name is
    empty, and a resource that is neither a queue nor a topic. The path of
    a topic is never empty, whatever the names. *)
Theorem entityPath_empty_iff (entityID : AzureResourceID) :
  entityPath entityID = EmptyString
  ↔ (ResourceType entityID = resourceTypeQueues ∧ ResourceName entityID = EmptyString)
    ∨ (ResourceType entityID ≠ resourceTypeQueues
       ∧ ResourceType entityID ≠ resourceTypeTopics).
Proof.
  unfold entityPath.
  destruct (String.eqb_spec (ResourceType entityID) resourceTypeQueues) as [Hq|Hq].
  - split; [intros Hn; by left | intros [[_ Hn]|[Hne _]]; [done | contradiction]].
  - destruct (String.eqb_spec (ResourceType entityID) resourceTypeTopics) as [Ht|Ht].
    + split.
      * intros Hempty. apply append_empty_inv in Hempty as Hname.
        rewrite Hname in Hempty. discriminate Hempty.
      * intros [[Hq' _]|[_ Ht']]; contradiction.
    + split; [intros _; by right | done].
Qed.

(** Without a key name and without a key value, the connection string is
    the value of [SERVICEBUS_CONNECTION_STRING] as it is, for every
    namespace and entity path; it is empty when that variable is not set
    either. It is the string the first binding attempt is made with. *)
Theorem connectionStringFromEnvironment_no_key
    (environ : gmap string string) (namespace path : string) :
  os_Getenv environ envKeyName = EmptyString →
  os_Getenv environ envKeyValue = EmptyString →
  connectionStringFromEnvironment environ namespace path = os_Getenv environ envConnStr
  ∧ (environ !! envConnStr = None →
     connectionStringFromEnvironment environ namespace path = EmptyString)
  ∧ ∀ entityID ns, ∃ rest,
      (namespaceFromEnvironment environ entityID ns).2
      = CallWithConnectionString (os_Getenv environ envConnStr) :: rest.
Proof.
  intros Hname Hvalue.
  assert (∀ n p, connectionStringFromEnvironment environ n p
                 = os_Getenv environ envConnStr) as Hconn.
  { intros n p. unfold connectionStringFromEnvironment. by rewrite Hname, Hvalue. }
  split; [apply Hconn|]. split.
  - intros Hunset. rewrite Hconn. unfold os_Getenv. by rewrite Hunset.
  - intros entityID ns. unfold namespaceFromEnvironment. rewrite Hconn.
    destruct (NamespaceWithConnectionString _ ns) as [[sasErr|] ns1]; [|by eexists].
    destruct (NamespaceWithEnvironmentBinding environ (Namespace entityID) ns1)
      as [[aadErr|] ns2]; by eexists.
Qed.

(** [connectionStringFromEnvironment] reads three variables of the
    environment and nothing else: two environments that agree on them give
    the same connection string. *)
Theorem connectionStringFromEnvironment_reads (environ environ' : gmap string string)
    (namespace path : string) :
  environ !! envKeyName = environ' !! envKeyName →
  environ !! envKeyValue = environ' !! envKeyValue →
  environ !! envConnStr = environ' !! envConnStr →
  connectionStringFromEnvironment environ namespace path
  = connectionStringFromEnvironment environ' namespace path.
Proof.
  intros Hn Hv Hc. unfold connectionStringFromEnvironment, os_Getenv.
  by rewrite Hn, Hv, Hc.
Qed.
End ConfigurationMore.

(** * Properties of the construction of the adapter *)

Section ConstructionFacts.
Context `{!GoRuntime} `{!AzureSDK} `{!ServiceBusSDK}.
Local Open Scope list_scope.

(** The three steps [NewAdapter] goes through before it looks at the
    processor, as one case analysis. *)
Lemma NewAdapter_cases (environ : gmap string string) (env : envConfig)
    (c : CloudEventsClient) :
  (∃ err, parseServiceBusResourceID (EntityResourceID env) = inl err
          ∧ NewAdapter environ env c
            = (Panic ("Unable to parse entity ID "
                      +:+ strconv_Quote (EntityResourceID env)) (Some err), []))
  ∨ ∃ entityID, parseServiceBusResourceID (EntityResourceID env) = inr entityID ∧
    ((∃ err, servicebus_NewNamespace
               (λ ns, (namespaceFromEnvironment environ entityID ns).1) = inl err
             ∧ NewAdapter environ env c
               = (Panic "Unable to obtain interface for Service Bus Namespace"
                        (Some err), [CallNewNamespace]))
     ∨ ∃ ns, servicebus_NewNamespace
               (λ ns, (namespaceFromEnvironment environ entityID ns).1) = inr ns ∧
       ((∃ err, Namespace_NewReceiver ns (entityPath entityID) = inl err
                ∧ NewAdapter environ env c
                  = (Panic ("Unable to obtain message receiver for Service Bus entity "
                            +:+ strconv_Quote (entityPath entityID)) (Some err),
                     [CallNewNamespace; CallNewReceiver (entityPath entityID)]))
        ∨ ∃ rcvr, Namespace_NewReceiver ns (entityPath entityID) = inr rcvr ∧
          ((MessageProcessor env = "default"
            ∧ NewAdapter environ env c
              = (Built {| ceClient := c; msgRcvr := rcvr;
                          msgPrcsr := defaultMessageProcessor (EntityResourceID env) |},
                 [CallNewNamespace; CallNewReceiver (entityPath entityID);
                  CallRegisterTracer]))
           ∨ (MessageProcessor env ≠ "default"
              ∧ NewAdapter environ env c
                = (Panic ("unsupported message processor "
                          +:+ strconv_Quote (MessageProcessor env)) None,
                   [CallNewNamespace; CallNewReceiver (entityPath entityID)]))))).
Proof.
  unfold NewAdapter.
  destruct (parseServiceBusResourceID (EntityResourceID env)) as [err|entityID];
    [left; eauto|].
  right. exists entityID. split; [done|].
  destruct (servicebus_NewNamespace _) as [err|ns]; [left; eauto|].
  right. exists ns. split; [done|].
  destruct (Namespace_NewReceiver ns (entityPath entityID)) as [err|rcvr]; [left; eauto|].
  right. exists rcvr. split; [done|].
  destruct (String.eqb_spec (MessageProcessor env) "default") as [Hd|Hd]; [left|right]; done.
Qed.

(** [NewAdapter] returns an adapter exactly when the entity ID parses,
    the namespace is obtained with the option of
    [namespaceFromEnvironment], the receiver opens on the entity path of
    the parsed ID and the processor is [default]. The adapter holds that
    receiver, the client it was given and the default processor with the
    entity ID string as CloudEvents source. *)
Theorem NewAdapter_built_iff (environ : gmap string string) (env : envConfig)
    (c : CloudEventsClient) (a : adapter) :
  (NewAdapter environ env c).1 = Built a
  ↔ ∃ entityID ns,
      parseServiceBusResourceID (EntityResourceID env) = inr entityID
      ∧ servicebus_NewNamespace
          (λ ns, (namespaceFromEnvironment environ entityID ns).1) = inr ns
      ∧ Namespace_NewReceiver ns (entityPath entityID) = inr (msgRcvr a)
      ∧ MessageProcessor env = "default"
      ∧ ceClient a = c
      ∧ msgPrcsr a = defaultMessageProcessor (EntityResourceID env).
Proof.
  split.
  - intros Hbuilt.
    destruct (NewAdapter_cases environ env c)
      as [(err & _ & Hrun)
         |(entityID & Hparse &
           [(err & _ & Hrun)
           |(ns & Hns &
             [(err & _ & Hrun)
             |(rcvr & Hrcvr & [(Hd & Hrun)|(_ & Hrun)])])])];
      rewrite Hrun in Hbuilt; try discriminate Hbuilt.
    injection Hbuilt as <-. exists entityID, ns. done.
  - intros (entityID & ns & Hparse & Hns & Hrcvr & Hd & Hc & Hp).
    unfold NewAdapter. rewrite Hparse, Hns, Hrcvr, Hd. cbn [fst String.eqb].
    destruct a as [r c' p']. cbn in *. by subst.
Qed.

(** The tracer is registered exactly when [NewAdapter] returns an
    adapter, and then as the last of three calls: a construction that
    panics leaves the registry as it was. *)
Theorem NewAdapter_registers_tracer (environ : gmap string string) (env : envConfig)
    (c : CloudEventsClient) :
  (CallRegisterTracer ∈ (NewAdapter environ env c).2
   ↔ ∃ a, (NewAdapter environ env c).1 = Built a)
  ∧ ∀ a, (NewAdapter environ env c).1 = Built a →
         ∃ path, (NewAdapter environ env c).2
                 = [CallNewNamespace; CallNewReceiver path; CallRegisterTracer].
Proof.
  destruct (NewAdapter_cases environ env c)
    as [(err & _ & Hrun)
       |(entityID & Hparse &
         [(err & _ & Hrun)
         |(ns & Hns &
           [(err & _ & Hrun)
           |(rcvr & Hrcvr & [(Hd & Hrun)|(_ & Hrun)])])])];
    rewrite Hrun; cbn [fst snd].
  all: split; [split|].
  all: try (intros Hin; exfalso; set_solver).
  all: try (intros [a Ha]; discriminate Ha).
  all: try (intros a Ha; discriminate Ha).
  - intros _. eauto.
  - intros _. set_solver.
  - intros a _. eauto.
Qed.

(** With a processor name other than [default], [NewAdapter] panics in
    every case; when nothing else fails, it does so after the namespace
    and the receiver were obtained, with a message that quotes the
    name. *)
Theorem NewAdapter_unsupported_processor (environ : gmap string string)
    (env : envConfig) (c : CloudEventsClient) :
  MessageProcessor env ≠ "default" →
  (∃ msg err, (NewAdapter environ env c).1 = Panic msg err)
  ∧ ∀ msg, (NewAdapter environ env c).1 = Panic msg None →
           msg = "unsupported message processor " +:+ strconv_Quote (MessageProcessor env)
           ∧ ∃ entityID,
               parseServiceBusResourceID (EntityResourceID env) = inr entityID
               ∧ (NewAdapter environ env c).2
                 = [CallNewNamespace; CallNewReceiver (entityPath entityID)].
Proof.
  intros Hname.
  destruct (NewAdapter_cases environ env c)
    as [(err & _ & Hrun)
       |(entityID & Hparse &
         [(err & _ & Hrun)
         |(ns & Hns &
           [(err & _ & Hrun)
           |(rcvr & Hrcvr & [(Hd & Hrun)|(_ & Hrun)])])])];
    rewrite Hrun; cbn [fst snd]; try contradiction.
  all: split; [eauto|]; intros msg [= <-]. 
  split; [done|]. eauto.
Qed.

(** A receiver is only ever opened on the entity path of the parsed
    entity ID, which is the name of a queue or the path of a topic
    subscription. *)
Theorem NewAdapter_receiver_path (environ : gmap string string) (env : envConfig)
    (c : CloudEventsClient) (path : string) :
  CallNewReceiver path ∈ (NewAdapter environ env c).2 →
  ∃ r, parseServiceBusResourceID (EntityResourceID env) = inr r
       ∧ path = entityPath r
       ∧ ((ResourceType r = resourceTypeQueues ∧ path = ResourceName r)
          ∨ (ResourceType r = resourceTypeTopics
             ∧ path = ResourceName r +:+ "/Subscriptions/" +:+ SubResourceName r)).
Proof.
  intros Hin.
  assert (∃ r, parseServiceBusResourceID (EntityResourceID env) = inr r
               ∧ path = entityPath r) as (r & Hparse & ->).
  { destruct (NewAdapter_cases environ env c)
      as [(err & _ & Hrun)
         |(entityID & Hparse &
           [(err & _ & Hrun)
           |(ns & Hns &
             [(err & _ & Hrun)
             |(rcvr & Hrcvr & [(Hd & Hrun)|(_ & Hrun)])])])];
      rewrite Hrun in Hin; cbn [snd] in Hin.
    1,2: exfalso; set_solver.
    all: exists entityID; split; [done|]; set_solver. }
  exists r. split; [done|]. split; [done|].
  destruct (parse_accepts_only_entities _ r Hparse) as (_ & _ & _ & [Hq|Ht] & _).
  - left. split; [done|]. unfold entityPath. by rewrite Hq.
  - right. split; [done|]. unfold entityPath. by rewrite Ht.
Qed.
End ConstructionFacts.

(** * Further properties of the message handler *)

Section HandlerMore.
Context `{!GoRuntime} `{!Collaborators}.
Local Open Scope list_scope.

Lemma handleMessage_iter_nil p sendErrs s :
  heap s !! p = None → handleMessage_iter p sendErrs s = Panicked s.
Proof. intros Hp. unfold handleMessage_iter, bind, deref. by rewrite Hp. Qed.

Lemma handleMessage_range_app ps1 ps2 : ∀ sendErrs s,
  handleMessage_range (ps1 ++ ps2) sendErrs s
  = bind (handleMessage_range ps1 sendErrs) (λ errs, handleMessage_range ps2 errs) s.
Proof.
  induction ps1 as [|p ps1 IH]; intros sendErrs s; [done|].
  cbn [app handleMessage_range]. unfold bind.
  destruct (handleMessage_iter p sendErrs s) as [errs s1|s1]; [|done].
  rewrite IH. done.
Qed.

(** Either every pointer refers to an event, or there is a first one that
    does not. *)
Lemma first_nil_pointer (h : gmap ptr Event) (events : list ptr) :
  (∃ es, Forall2 (λ p e, h !! p = Some e) events es)
  ∨ (∃ ps1 p ps2 es1,
       events = ps1 ++ p :: ps2
       ∧ Forall2 (λ p e, h !! p = Some e) ps1 es1
       ∧ h !! p = None).
Proof.
  induction events as [|p ps IH]; [left; by exists []|].
  destruct (h !! p) as [e|] eqn:Hp.
  - destruct IH as [[es Hes]|(ps1 & q & ps2 & es1 & -> & Hes1 & Hq)].
    + left. exists (e :: es). by constructor.
    + right. exists (p :: ps1), q, ps2, (e :: es1). split; [done|].
      split; [by constructor | done].
  - right. exists [], p, ps, []. split; [done|]. split; [constructor | done].
Qed.

(** The loop up to the first pointer that refers to no event: the events
    before it are dispatched, then the loop panics. *)
Lemma handleMessage_range_panics ps1 p ps2 es1 s sendErrs :
  Forall2 (λ p e, heap s !! p = Some e) ps1 es1 →
  heap s !! p = None →
  ∃ s' new,
    handleMessage_range (ps1 ++ p :: ps2) sendErrs s = Panicked s'
    ∧ calls s' = calls s ++ new
    ∧ dispatch_calls es1 (send_all (map corrected es1) (world s)).1 new.
Proof.
  intros Hes Hp.
  destruct (handleMessage_range_run ps1 es1 s sendErrs)
    as (s1 & new & Hrun & Hcalls & Hdisp & _ & Hheap).
  { eapply Forall2_impl; [exact Hes|]. intros q e Hq. exists e. auto. }
  exists s1, new. split; [|done].
  rewrite handleMessage_range_app. unfold bind at 1. rewrite Hrun.
  cbn [handleMessage_range]. unfold bind at 1.
  rewrite handleMessage_iter_nil; [done|].
  rewrite Hheap, Hp. by case_bool_decide.
Qed.

Lemma dispatch_calls_acknowledged es sends new :
  dispatch_calls es sends new →
  Forall (λ er, IsACK er.2 = true) sends → Forall acknowledged new.
Proof.
  induction 1 as [|e v result es sends cs Hv Hd IH]; intros Hack; [constructor|].
  apply Forall_cons in Hack as [Hhd Htl].
  constructor; [exact I|]. constructor; [exact Hhd | by apply IH].
Qed.

(** Every way [handleMessage] can go on a message that is not nil. *)
Lemma handleMessage_outcome (msg : Message) (s : State) :
  ∃ events err h1 w1,
    MessageProcessor_Process msg (heap s) (world s) = (events, err, h1, w1) ∧
    match err with
    | Some perr =>
        handleMessage (Some msg) s
        = Done (Some (wrapError ("processing Service Bus message with ID "
                                 +:+ Message_ID msg +:+ ": " +:+ Error perr) perr))
               {| heap := h1; world := w1; calls := calls s ++ [CallProcess msg] |}
    | None =>
        (∃ es s2 new,
           Forall2 (λ p e, h1 !! p = Some e) events es
           ∧ calls s2 = calls s ++ [CallProcess msg] ++ new
           ∧ dispatch_calls es (send_all (map corrected es) w1).1 new
           ∧ world s2 = (send_all (map corrected es) w1).2
           ∧ ((ErrorBatch (send_all (map corrected es) w1).1 ≠ []
               ∧ handleMessage (Some msg) s
                 = Done (Some (wrapError
                                 ("sending events to the sink: "
                                  +:+ Error (errList (ErrorBatch
                                                        (send_all (map corrected es) w1).1)))
                                 (errList (ErrorBatch (send_all (map corrected es) w1).1))))
                        s2)
              ∨ (ErrorBatch (send_all (map corrected es) w1).1 = []
                 ∧ handleMessage (Some msg) s
                   = Done (Message_Complete msg (world s2)).1
                          {| heap := heap s2;
                             world := (Message_Complete msg (world s2)).2;
                             calls := calls s2
                                      ++ [CallComplete msg
                                            (Message_Complete msg (world s2)).1] |})))
        ∨ (∃ ps1 p ps2 es1 s2 new,
             events = ps1 ++ p :: ps2
             ∧ Forall2 (λ p e, h1 !! p = Some e) ps1 es1
             ∧ h1 !! p = None
             ∧ handleMessage (Some msg) s = Panicked s2
             ∧ calls s2 = calls s ++ [CallProcess msg] ++ new
             ∧ dispatch_calls es1 (send_all (map corrected es1) w1).1 new)
    end.
Proof.
  destruct (MessageProcessor_Process msg (heap s) (world s))
    as [[[events err] h1] w1] eqn:Hproc.
  exists events, err, h1, w1. split; [done|].
  destruct err as [perr|].
  - unfold handleMessage. unfold bind at 1.
    rewrite (call_Process_run msg s events (Some perr) h1 w1 Hproc).
    unfold ret. by rewrite Errorf_w_s.
  - destruct (first_nil_pointer h1 events)
      as [[es Hes]|(ps1 & p & ps2 & es1 & -> & Hes1 & Hp)].
    + left.
      destruct (handleMessage_dispatch msg s events h1 w1 es Hproc Hes)
        as (s2 & new & _ & Hrun & Hcalls & Hdisp & Hworld & _).
      exists es, s2, new. split; [done|]. split; [done|]. split; [done|].
      split; [done|].
      destruct (ErrorBatch (send_all (map corrected es) w1).1) as [|x batch] eqn:Hb.
      * right. split; [done|]. rewrite Hrun. cbn [length Nat.eqb negb].
        unfold messageCompleteFunc.
        by destruct (Message_Complete msg (world s2)) as [result w3].
      * left. split; [done|]. rewrite Hrun. reflexivity.
    + right.
      destruct (handleMessage_range_panics ps1 p ps2 es1
                  {| heap := h1; world := w1; calls := calls s ++ [CallProcess msg] |} [])
        as (s2 & new & Hrun & Hcalls & Hdisp); [done|done|].
      cbn [heap world calls] in *.
      exists ps1, p, ps2, es1, s2, new. split; [done|]. split; [done|]. split; [done|].
      split; [|split; [|done]].
      * unfold handleMessage. unfold bind at 1.
        rewrite (call_Process_run msg s _ None h1 w1 Hproc).
        unfold bind at 1. by rewrite Hrun.
      * rewrite Hcalls. by rewrite <- (assoc_L (++)).
Qed.
(** A loop that returns went through pointers that all refer to
    events. *)
Lemma handleMessage_range_done events sendErrs s errs s' :
  handleMessage_range events sendErrs s = Done errs s' →
  ∃ es, Forall2 (λ p e, heap s !! p = Some e) events es.
Proof.
  intros Hrun.
  destruct (first_nil_pointer (heap s) events)
    as [Hes|(ps1 & p & ps2 & es1 & -> & Hes1 & Hp)]; [done|].
  destruct (handleMessage_range_panics ps1 p ps2 es1 s sendErrs Hes1 Hp)
    as (s2 & new & Hpanic & _).
  rewrite Hpanic in Hrun. discriminate Hrun.
Qed.

Lemma failed_sends_sublist sends : (failed_sends sends).*1 `sublist_of` sends.*1.
Proof.
  induction sends as [|[e result] sends IH]; [done|].
  unfold failed_sends. cbn [omap list_omap fst snd fmap list_fmap].
  destruct result as [cause|]; [|by apply sublist_cons].
  destruct (ResultIs_ACK cause); [by apply sublist_cons|].
  cbn [fmap list_fmap fst]. by apply sublist_skip.
Qed.

Lemma failed_sends_not_acknowledged sends :
  Forall (λ ec, ResultIs_ACK ec.2 = false) (failed_sends sends).
Proof.
  induction sends as [|[e result] sends IH]; [constructor|].
  unfold failed_sends. cbn [omap list_omap fst snd].
  destruct result as [cause|]; [|exact IH].
  destruct (ResultIs_ACK cause) eqn:Hack; [exact IH|].
  constructor; [exact Hack | exact IH].
Qed.

(** When the processor returns a pointer that refers to no event, the
    handler sends the events before it, in order, and panics: the events
    after it are not sent and the message is not completed. *)
Theorem handleMessage_nil_event (msg : Message) (s : State)
    (ps1 ps2 : list ptr) (p : ptr) (es1 : list Event)
    (h1 : gmap ptr Event) (w1 : World) :
  MessageProcessor_Process msg (heap s) (world s) = (ps1 ++ p :: ps2, None, h1, w1) →
  Forall2 (λ q e, h1 !! q = Some e) ps1 es1 →
  h1 !! p = None →
  ∃ s' new,
    handleMessage (Some msg) s = Panicked s'
    ∧ calls s' = calls s ++ [CallProcess msg] ++ new
    ∧ dispatch_calls es1 (send_all (map corrected es1) w1).1 new
    ∧ dispatches new = length ps1
    ∧ completions (calls s') = completions (calls s).
Proof.
  intros Hproc Hes1 Hp.
  destruct (handleMessage_range_panics ps1 p ps2 es1
              {| heap := h1; world := w1; calls := calls s ++ [CallProcess msg] |} [])
    as (s2 & new & Hrun & Hcalls & Hdisp); [done|done|].
  cbn [heap world calls] in *.
  exists s2, new. split; [|split; [|split; [done|split]]].
  - unfold handleMessage. unfold bind at 1.
    rewrite (call_Process_run msg s _ None h1 w1 Hproc).
    unfold bind at 1. by rewrite Hrun.
  - rewrite Hcalls. by rewrite <- (assoc_L (++)).
  - destruct (dispatch_calls_counts _ _ _ Hdisp) as (_ & -> & _).
    symmetry. by eapply Forall2_length.
  - rewrite Hcalls, !completions_app.
    destruct (dispatch_calls_counts _ _ _ Hdisp) as (-> & _ & _).
    replace (completions [CallProcess msg]) with 0 by reflexivity. lia.
Qed.

(** The handler returns nil for a message only after the processor
    succeeded, every event it gave was sent and acknowledged, and the
    completion handle was invoked, last, and returned nil. *)
Theorem handleMessage_nil_result (msg : Message) (s s' : State) :
  handleMessage (Some msg) s = Done None s' →
  ∃ events h1 w1 es new,
    MessageProcessor_Process msg (heap s) (world s) = (events, None, h1, w1)
    ∧ Forall2 (λ p e, h1 !! p = Some e) events es
    ∧ calls s' = calls s ++ [CallProcess msg] ++ new ++ [CallComplete msg None]
    ∧ dispatch_calls es (send_all (map corrected es) w1).1 new
    ∧ Forall (λ er, IsACK er.2 = true) (send_all (map corrected es) w1).1
    ∧ Forall acknowledged new.
Proof.
  intros Hnil.
  destruct (handleMessage_outcome msg s) as (events & err & h1 & w1 & Hproc & Hout).
  destruct err as [perr|].
  { rewrite Hout in Hnil. discriminate Hnil. }
  destruct Hout as [(es & s2 & new & Hes & Hcalls & Hdisp & Hworld & Hout)
                   |(ps1 & p & ps2 & es1 & s2 & new & _ & _ & _ & Hpanic & _)].
  2: { rewrite Hpanic in Hnil. discriminate Hnil. }
  destruct Hout as [[_ Hrun]|[Hbatch Hrun]]; rewrite Hrun in Hnil.
  { discriminate Hnil. }
  injection Hnil as Hresult <-. cbn [calls].
  apply ErrorBatch_nil_iff in Hbatch as Hack.
  exists events, h1, w1, es, new. split; [done|]. split; [done|].
  split; [|split; [done|split; [done|]]].
  - rewrite Hcalls, Hresult. by rewrite <- !(assoc_L (++)).
  - by eapply dispatch_calls_acknowledged.
Qed.

(** Whatever the collaborators do, and whether the handler returns or
    panics, the calls of a run start with the call to the processor and
    hold at most one completion. A completion is the last call of a run
    that returned what the completion returned, and every send before it
    was acknowledged. *)
Theorem handleMessage_completes_only_acknowledged (msg : Message) (s : State) :
  ∃ new,
    calls (final_state (handleMessage (Some msg) s)) = calls s ++ CallProcess msg :: new
    ∧ (completions new ≤ 1)%nat
    ∧ (completions new = 1 →
       ∃ sends result s',
         new = sends ++ [CallComplete msg result]
         ∧ Forall acknowledged sends
         ∧ completions sends = 0
         ∧ handleMessage (Some msg) s = Done result s').
Proof.
  destruct (handleMessage_outcome msg s) as (events & err & h1 & w1 & Hproc & Hout).
  destruct err as [perr|].
  { rewrite Hout. cbn [final_state calls]. exists []. split; [done|].
    split; [cbn; lia | intros Hone; discriminate Hone]. }
  destruct Hout as [(es & s2 & new & Hes & Hcalls & Hdisp & Hworld & Hout)
                   |(ps1 & p & ps2 & es1 & s2 & new & _ & _ & _ & Hpanic & Hcalls & Hdisp)].
  - destruct (dispatch_calls_counts _ _ _ Hdisp) as (Hzero & _ & _).
    destruct Hout as [[_ Hrun]|[Hbatch Hrun]]; rewrite Hrun; cbn [final_state calls].
    + exists new. split; [exact Hcalls|]. rewrite Hzero.
      split; [lia | intros Hone; discriminate Hone].
    + exists (new ++ [CallComplete msg (Message_Complete msg (world s2)).1]).
      split; [rewrite Hcalls; by rewrite <- !(assoc_L (++))|].
      rewrite completions_app, Hzero.
      replace (completions [CallComplete msg (Message_Complete msg (world s2)).1])
        with 1 by reflexivity.
      split; [lia|]. intros _. eexists new, _, _. split; [done|].
      split; [|done].
      eapply dispatch_calls_acknowledged; [exact Hdisp|].
      by apply ErrorBatch_nil_iff.
  - rewrite Hpanic. cbn [final_state].
    destruct (dispatch_calls_counts _ _ _ Hdisp) as (Hzero & _ & _).
    exists new. split; [exact Hcalls|]. rewrite Hzero.
    split; [lia | intros Hone; discriminate Hone].
Qed.

(** An error the handler returns is of one of three kinds: the
    processor's error, wrapped, and then the processor's call is the only
    call; the aggregate of a batch that is not empty, wrapped, and then
    the completion handle was not invoked; or the error of the completion
    handle as it is, after sends that were all acknowledged. *)
Theorem handleMessage_error_kinds (msg : Message) (s s' : State) (err : error) :
  handleMessage (Some msg) s = Done (Some err) s' →
  (∃ perr, (MessageProcessor_Process msg (heap s) (world s)).1.1.2 = Some perr
           ∧ err = wrapError ("processing Service Bus message with ID "
                              +:+ Message_ID msg +:+ ": " +:+ Error perr) perr
           ∧ calls s' = calls s ++ [CallProcess msg])
  ∨ (∃ batch, batch ≠ []
              ∧ err = wrapError ("sending events to the sink: "
                                 +:+ Error (errList batch)) (errList batch)
              ∧ completions (calls s') = completions (calls s))
  ∨ (∃ new, calls s' = calls s ++ [CallProcess msg] ++ new ++ [CallComplete msg (Some err)]
            ∧ Forall acknowledged new).
Proof.
  intros Herr.
  destruct (handleMessage_outcome msg s) as (events & perr & h1 & w1 & Hproc & Hout).
  destruct perr as [perr|].
  { rewrite Hout in Herr. injection Herr as <- <-. left. exists perr.
    rewrite Hproc. done. }
  destruct Hout as [(es & s2 & new & Hes & Hcalls & Hdisp & Hworld & Hout)
                   |(ps1 & p & ps2 & es1 & s2 & new & _ & _ & _ & Hpanic & _)].
  2: { rewrite Hpanic in Herr. discriminate Herr. }
  destruct (dispatch_calls_counts _ _ _ Hdisp) as (Hzero & _ & _).
  destruct Hout as [[Hbatch Hrun]|[Hbatch Hrun]]; rewrite Hrun in Herr.
  - injection Herr as <- <-. right. left. eexists. split; [exact Hbatch|].
    split; [done|]. rewrite Hcalls, !completions_app, Hzero.
    replace (completions [CallProcess msg]) with 0 by reflexivity. lia.
  - injection Herr as Hresult <-. right. right. exists new. cbn [calls].
    split; [rewrite Hcalls, Hresult; by rewrite <- !(assoc_L (++))|].
    eapply dispatch_calls_acknowledged; [exact Hdisp|].
    by apply ErrorBatch_nil_iff.
Qed.

(** A message for which the processor gives no event is completed at
    once: the handler calls the processor, then the completion handle, and
    returns what the completion handle returned; the sink is not
    called. *)
Theorem handleMessage_no_events (msg : Message) (s : State)
    (h1 : gmap ptr Event) (w1 : World) :
  MessageProcessor_Process msg (heap s) (world s) = ([], None, h1, w1) →
  handleMessage (Some msg) s
  = Done (Message_Complete msg w1).1
         {| heap := h1; world := (Message_Complete msg w1).2;
            calls := calls s ++ [CallProcess msg;
                                 CallComplete msg (Message_Complete msg w1).1] |}
  ∧ dispatches (calls s ++ [CallProcess msg;
                            CallComplete msg (Message_Complete msg w1).1])
    = dispatches (calls s).
Proof.
  intros Hproc. split.
  - unfold handleMessage. unfold bind at 1.
    rewrite (call_Process_run msg s [] None h1 w1 Hproc).
    cbn [handleMessage_range]. unfold bind, ret. cbn [length Nat.eqb negb].
    unfold messageCompleteFunc. cbn [heap world calls].
    destruct (Message_Complete msg w1) as [result w2]. cbn [fst snd].
    by rewrite <- (assoc_L (++)).
  - rewrite dispatches_app.
    replace (dispatches [CallProcess msg; CallComplete msg (Message_Complete msg w1).1])
      with 0 by reflexivity. lia.
Qed.
(** Events that are all valid go to the sink as they are, in order, and
    the store is left as it was. *)
Theorem handleMessage_range_valid
    (events : list ptr) (es : list Event) (s : State) (sendErrs : list error) :
  Forall2 (λ p e, heap s !! p = Some e) events es →
  Forall (λ e, Event_Validate e = None) es →
  ∃ s' new,
    handleMessage_range events sendErrs s
    = Done (sendErrs ++ ErrorBatch (send_all es (world s)).1) s'
    ∧ heap s' = heap s
    ∧ calls s' = calls s ++ new
    ∧ dispatch_calls es (send_all es (world s)).1 new
    ∧ (send_all es (world s)).1.*1 = es.
Proof.
  intros Hes Hvalid.
  assert (map corrected es = es) as Hid.
  { clear Hes. induction Hvalid as [|e es He _ IH]; [done|].
    cbn [map]. rewrite IH. unfold corrected. by rewrite He. }
  destruct (handleMessage_range_run events es s sendErrs)
    as (s' & new & Hrun & Hcalls & Hdisp & _ & Hheap).
  { eapply Forall2_impl; [exact Hes|]. intros q e Hq. exists e. auto. }
  rewrite Hid in Hrun, Hdisp.
  exists s', new. split; [done|]. split; [|split; [done|split; [done|]]].
  - apply map_eq. intros q. rewrite Hheap. case_bool_decide as Hin; [|done].
    apply list_elem_of_lookup in Hin as [i Hi].
    destruct (Forall2_lookup_l _ _ _ _ _ Hes Hi) as (e & He & Hq).
    rewrite Hq. cbn. f_equal. unfold corrected.
    rewrite Forall_forall in Hvalid. rewrite Hvalid; [done|].
    apply list_elem_of_lookup. eauto.
  - apply send_all_events.
Qed.

(** A loop that returns leaves in the store the locations it found. An
    event of the store is as it was, or as it was with [dataschema]
    cleared, which can only happen at a pointer of the slice; its ID is
    never changed. *)
Theorem handleMessage_range_store
    (events : list ptr) (s s' : State) (sendErrs errs : list error) :
  handleMessage_range events sendErrs s = Done errs s' →
  dom (heap s') = dom (heap s)
  ∧ ∀ q e', heap s' !! q = Some e' →
      ∃ e, heap s !! q = Some e
           ∧ (e' = e ∨ (q ∈ events ∧ e' = Event_SetDataSchema EmptyString e))
           ∧ Event_ID e' = Event_ID e.
Proof.
  intros Hrun.
  destruct (handleMessage_range_done _ _ _ _ _ Hrun) as [es Hes].
  destruct (handleMessage_range_run events es s sendErrs)
    as (s2 & new & Hrun' & _ & _ & _ & Hheap).
  { eapply Forall2_impl; [exact Hes|]. intros q e Hq. exists e. auto. }
  rewrite Hrun' in Hrun. injection Hrun as _ <-.
  split.
  - apply set_eq. intros q. rewrite !elem_of_dom, Hheap.
    case_bool_decide; [|done]. by rewrite fmap_is_Some.
  - intros q e' Hq. rewrite Hheap in Hq. case_bool_decide as Hin.
    + destruct (heap s !! q) as [e|]; [|discriminate Hq].
      injection Hq as <-. exists e. split; [done|]. split; [|apply corrected_ID].
      unfold corrected. destruct (Event_Validate e) as [v|]; [|by left].
      destruct (sanitized_cases v e) as [->| ->]; [by left | by right].
    + exists e'. split; [done|]. split; [by left | done].
Qed.

(** The batch has at most one entry per event, in the order of the
    events: the IDs of its entries are a subsequence of the IDs of the
    events, and no entry has an acknowledgment as its cause. *)
Theorem handleMessage_range_batch
    (events : list ptr) (es : list Event) (s : State) (sendErrs : list error) :
  Forall2 (λ p e, heap s !! p = Some e) events es →
  ∃ s' entries,
    handleMessage_range events sendErrs s
    = Done (sendErrs
            ++ map (λ ec, wrapError ("failed to send event with ID "
                                     +:+ Event_ID ec.1 +:+ ": " +:+ Error ec.2) ec.2)
                   entries) s'
    ∧ (Event_ID <$> entries.*1) `sublist_of` (Event_ID <$> es)
    ∧ Forall (λ ec, ResultIs_ACK ec.2 = false) entries
    ∧ (length entries ≤ length events)%nat.
Proof.
  intros Hes.
  destruct (handleMessage_range_run events es s sendErrs)
    as (s' & new & Hrun & _).
  { eapply Forall2_impl; [exact Hes|]. intros q e Hq. exists e. auto. }
  exists s', (failed_sends (send_all (map corrected es) (world s)).1).
  assert ((Event_ID <$> (failed_sends (send_all (map corrected es) (world s)).1).*1)
          `sublist_of` (Event_ID <$> es)) as Hsub.
  { replace (Event_ID <$> es) with (Event_ID <$> map corrected es).
    - apply fmap_sublist.
      rewrite <- (send_all_events (map corrected es) (world s)) at 2.
      apply failed_sends_sublist.
    - clear. induction es as [|e es IH]; [done|].
      cbn [map fmap list_fmap]. rewrite corrected_ID. f_equal. exact IH. }
  split; [|split; [exact Hsub|split; [apply failed_sends_not_acknowledged|]]].
  - rewrite Hrun. do 2 f_equal. unfold ErrorBatch. apply map_ext.
    intros [e cause]. apply Errorf_w_s.
  - apply sublist_length in Hsub. rewrite !length_fmap in Hsub.
    rewrite (Forall2_length _ _ _ Hes). exact Hsub.
Qed.

(** [sendCloudEvent] calls the sink once, with the event the pointer
    refers to, and leaves the store alone. It returns nil exactly when
    the result is an acknowledgment, and the result otherwise: what it
    returns is never an acknowledgment. On a pointer that refers to no
    event it panics without calling the sink. *)
Theorem sendCloudEvent_result (p : ptr) (s : State) :
  match heap s !! p with
  | Some e =>
      ∃ r s',
        sendCloudEvent p s = Done r s'
        ∧ heap s' = heap s
        ∧ calls s' = calls s ++ [CallSend e (Client_Send e (world s)).1]
        ∧ world s' = (Client_Send e (world s)).2
        ∧ (r = None ↔ IsACK (Client_Send e (world s)).1 = true)
        ∧ (∀ err, r = Some err →
             (Client_Send e (world s)).1 = Some err ∧ ResultIs_ACK err = false)
  | None => sendCloudEvent p s = Panicked s
  end.
Proof.
  destruct (heap s !! p) as [e|] eqn:Hp.
  - rewrite (sendCloudEvent_run p s e Hp).
    eexists _, _. split; [done|]. cbn [heap calls world].
    split; [done|]. split; [done|]. split; [done|].
    destruct (Client_Send e (world s)) as [[cause|] w]; cbn [fst snd IsACK].
    + destruct (ResultIs_ACK cause) eqn:Hack.
      * split; [done|]. intros err Herr. discriminate Herr.
      * split; [split; discriminate|]. intros err [= <-]. done.
    + split; [done|]. intros err Herr. discriminate Herr.
  - unfold sendCloudEvent, bind, deref. by rewrite Hp.
Qed.

Lemma sanitizeEvent_range_nil attrs (p : ptr) (s : State) :
  heap s !! p = None →
  sanitizeEvent_range attrs p s
  = if bool_decide ("dataschema" ∈ attrs) then Panicked s else Done tt s.
Proof.
  intros Hp. induction attrs as [|attr rest IH].
  - rewrite bool_decide_false by apply not_elem_of_nil. done.
  - cbn [sanitizeEvent_range]. unfold bind at 1.
    destruct (String.eqb_spec attr "dataschema") as [->|Hne].
    + unfold bind, deref. rewrite Hp.
      by rewrite bool_decide_true by apply list_elem_of_here.
    + unfold ret. rewrite IH.
      apply (f_equal (λ b : bool, if b then Panicked s else Done tt s)).
      apply bool_decide_ext. rewrite elem_of_cons.
      split; [intros Hin; by right | intros [Heq|Hin]; [congruence|done]].
Qed.

(** On a pointer that refers to no event, [sanitizeEvent] panics when
    the validation error lists [dataschema] and returns the pointer
    otherwise, without any effect. *)
Theorem sanitizeEvent_nil (validErrs : ValidationError) (p : ptr) (s : State) :
  heap s !! p = None →
  sanitizeEvent validErrs p s
  = if bool_decide (is_Some (validErrs !! "dataschema")) then Panicked s else Done p s.
Proof.
  intros Hp. unfold sanitizeEvent, bind.
  rewrite (sanitizeEvent_range_nil _ p s Hp).
  rewrite (bool_decide_ext _ _ (dataschema_in_keys validErrs)).
  by case_bool_decide.
Qed.

(** Sanitizing a second time changes nothing: once [dataschema] was
    cleared, [sanitizeEvent] leaves the state as it is whatever the
    validation error, and [sanitizeEvent] run twice with the same
    validation error is [sanitizeEvent] run once. *)
Theorem sanitizeEvent_twice (validErrs validErrs' : ValidationError)
    (p : ptr) (s s1 : State) :
  sanitizeEvent validErrs p s = Done p s1 →
  is_Some (validErrs !! "dataschema") ∨ validErrs' = validErrs →
  sanitizeEvent validErrs' p s1 = Done p s1.
Proof.
  intros Hrun Hcase.
  destruct (heap s !! p) as [e|] eqn:Hp.
  - rewrite (sanitizeEvent_run validErrs p s e Hp) in Hrun.
    injection Hrun as <-.
    rewrite (sanitizeEvent_run validErrs' p _ (sanitized validErrs e))
      by (cbn [heap]; apply lookup_insert_eq).
    cbn [heap world calls]. rewrite insert_insert_eq. do 3 f_equal.
    unfold sanitized. destruct Hcase as [Hsome| ->].
    + rewrite (bool_decide_true (is_Some (validErrs !! "dataschema"))) by done.
      by case_bool_decide.
    + by case_bool_decide.
  - assert (∀ v, sanitizeEvent v p s
                 = if bool_decide (is_Some (v !! "dataschema"))
                   then Panicked s else Done p s) as Hnil.
    { intros v. unfold sanitizeEvent, bind.
      rewrite (sanitizeEvent_range_nil _ p s Hp).
      rewrite (bool_decide_ext _ _ (dataschema_in_keys v)). by case_bool_decide. }
    rewrite Hnil in Hrun.
    case_bool_decide as Hd; [discriminate Hrun|]. injection Hrun as <-.
    destruct Hcase as [Hsome| ->]; [contradiction|].
    rewrite Hnil. by rewrite bool_decide_false.
Qed.
End HandlerMore.

Section ErrListFacts.
Context `{!GoRuntime}.

(** The message of an aggregate is empty exactly when the aggregate
    holds no error; otherwise it starts with an opening bracket. *)
Theorem errList_Error_empty_iff (errs : list error) :
  (Error (errList errs) = EmptyString ↔ errs = [])
  ∧ (errs ≠ [] → ∃ rest, Error (errList errs) = String "["%char rest).
Proof.
  destruct errs as [|e errs].
  - split; [done | intros Hne; contradiction].
  - split; [split; discriminate|]. intros _. eexists. reflexivity.
Qed.
End ErrListFacts.

(** * Properties of the test helpers *)

Section TestHelperFacts.
Context `{!GoRuntime} `{!AzureSDK} `{!ServiceBusSDK} `{!TestSDK}.
Local Open Scope list_scope.

Lemma Failf_then_return_fst {A} offset msg (a : A) made :
  (Failf_then_return offset msg a made).1 = if Failf_returns then Returns a else Aborts.
Proof. done. Qed.

(** [CreateServiceBusNamespace] returns nil exactly when the creation is
    accepted, its completion is awaited without error and its result is
    read without error; the three calls are then made in this order and
    no failure is reported. *)
Theorem CreateServiceBusNamespace_nil_iff
    (cli : NamespacesClient Authorizer) (rgName nsName region : string) :
  ((CreateServiceBusNamespace cli rgName nsName region).1 = Returns None
   ↔ ∃ nsFuture,
       NamespacesClient_CreateOrUpdate cli rgName nsName region = inr nsFuture
       ∧ Future_WaitForCompletionRef nsFuture cli = None
       ∧ Future_Result nsFuture cli = None)
  ∧ ((CreateServiceBusNamespace cli rgName nsName region).1 = Returns None →
     (CreateServiceBusNamespace cli rgName nsName region).2
     = [CallCreateOrUpdate rgName nsName region; CallWaitForCompletionRef; CallResult]).
Proof.
  unfold CreateServiceBusNamespace.
  destruct (NamespacesClient_CreateOrUpdate cli rgName nsName region) as [err|nsFuture].
  { rewrite Failf_then_return_fst. split.
    - split; [destruct Failf_returns; discriminate | intros (f & Hf & _); discriminate Hf].
    - destruct Failf_returns; discriminate. }
  destruct (Future_WaitForCompletionRef nsFuture cli) as [err|] eqn:Hwait.
  { rewrite Failf_then_return_fst. split.
    - split; [destruct Failf_returns; discriminate|].
      intros (f & [= <-] & Hw & _). congruence.
    - destruct Failf_returns; discriminate. }
  destruct (Future_Result nsFuture cli) as [err|] eqn:Hresult.
  { rewrite Failf_then_return_fst. split.
    - split; [destruct Failf_returns; discriminate|].
      intros (f & [= <-] & _ & Hr). congruence.
    - destruct Failf_returns; discriminate. }
  cbn [fst snd]. split; [|done]. split; [|done]. intros _. eauto.
Qed.

(** When [CreateServiceBusNamespace] does not return nil, the first step
    that failed is the last SDK call made: the steps after it are not
    attempted, the failure is reported once, last, with the message of that
    step and the message of its error, and that error is what is returned
    if the framework lets the helper return. *)
Theorem CreateServiceBusNamespace_first_failure
    (cli : NamespacesClient Authorizer) (rgName nsName region : string) :
  (CreateServiceBusNamespace cli rgName nsName region).1 ≠ Returns None →
  ∃ err made prefix,
    (CreateServiceBusNamespace cli rgName nsName region).1
    = (if Failf_returns then Returns (Some err) else Aborts)
    ∧ (CreateServiceBusNamespace cli rgName nsName region).2
      = made ++ [CallFailf 3 (prefix +:+ Error err)]
    ∧ ((NamespacesClient_CreateOrUpdate cli rgName nsName region = inl err
        ∧ made = [CallCreateOrUpdate rgName nsName region]
        ∧ prefix = "unable to create servicebus namespace: ")
       ∨ (∃ nsFuture,
            NamespacesClient_CreateOrUpdate cli rgName nsName region = inr nsFuture
            ∧ Future_WaitForCompletionRef nsFuture cli = Some err
            ∧ made = [CallCreateOrUpdate rgName nsName region; CallWaitForCompletionRef]
            ∧ prefix = "unable to complete servicebus namespace creation: ")
       ∨ (∃ nsFuture,
            NamespacesClient_CreateOrUpdate cli rgName nsName region = inr nsFuture
            ∧ Future_WaitForCompletionRef nsFuture cli = None
            ∧ Future_Result nsFuture cli = Some err
            ∧ made = [CallCreateOrUpdate rgName nsName region; CallWaitForCompletionRef;
                      CallResult]
            ∧ prefix = "servicebus namespace creation failed: ")).
Proof.
  unfold CreateServiceBusNamespace.
  destruct (NamespacesClient_CreateOrUpdate cli rgName nsName region) as [err|nsFuture].
  { intros _. eexists err, _, _. split; [done|]. split; [done|]. left. done. }
  destruct (Future_WaitForCompletionRef nsFuture cli) as [err|] eqn:Hwait.
  { intros _. eexists err, _, _. split; [done|]. split; [done|].
    right. left. exists nsFuture. done. }
  destruct (Future_Result nsFuture cli) as [err|] eqn:Hresult.
  { intros _. eexists err, _, _. split; [done|]. split; [done|].
    right. right. exists nsFuture. done. }
  intros Hne. contradiction.
Qed.

(** A namespace service [CreateNsService] returns was built, for a
    client that is not nil and without any reported failure, from the
    option for the primary connection string of the namespace [name] in
    the resource group of the same name, followed by [;EntityPath=] and
    [name]. The region plays no part. *)
Theorem CreateNsService_built (region name : string)
    (nsCli : option (NamespacesClient Authorizer)) (nsService : ServiceBusNamespace) :
  (CreateNsService region name nsCli).1 = Returns (Some nsService) →
  (∃ cli keys primary svNs,
     nsCli = Some cli
     ∧ NamespacesClient_ListKeys cli name name "RootManageSharedAccessKey" = inr keys
     ∧ PrimaryConnectionString keys = Some primary
     ∧ sv_NamespaceWithConnectionString (primary +:+ ";EntityPath=" +:+ name) = Some svNs
     ∧ servicebus_NewNamespace svNs = inr nsService
     ∧ (CreateNsService region name nsCli).2
       = [CallListKeys name name "RootManageSharedAccessKey";
          CallNamespaceWithConnectionString (primary +:+ ";EntityPath=" +:+ name);
          CallNewNamespaceService])
  ∧ ∀ region', CreateNsService region' name nsCli = CreateNsService region name nsCli.
Proof.
  intros Hbuilt. split; [|done]. revert Hbuilt. unfold CreateNsService.
  destruct nsCli as [cli|]; [|discriminate].
  destruct (NamespacesClient_ListKeys cli name name "RootManageSharedAccessKey")
    as [err|keys] eqn:Hkeys.
  { rewrite Failf_then_return_fst. destruct Failf_returns; discriminate. }
  destruct (PrimaryConnectionString keys) as [primary|] eqn:Hprimary; [|discriminate].
  destruct (sv_NamespaceWithConnectionString (primary +:+ ";EntityPath=" +:+ name))
    as [svNs|] eqn:Hopt.
  2: { rewrite Failf_then_return_fst. destruct Failf_returns; discriminate. }
  destruct (servicebus_NewNamespace svNs) as [err|ns] eqn:Hns.
  { rewrite Failf_then_return_fst. destruct Failf_returns; discriminate. }
  cbn [fst snd]. intros [= <-]. exists cli, keys, primary, svNs. done.
Qed.

(** [CreateNsService] panics on a nil pointer in two cases only. On a
    nil client it panics before any call; this is what happens to the
    client [CreateServiceBusNamespaceClient] returns when no authorizer
    could be made. On keys without primary connection string it panics
    after the call that lists the keys, before any namespace option is
    asked for. When it returns nil, or the test is aborted, exactly one
    failure was reported, last. *)
Theorem CreateNsService_outcomes (region name : string)
    (nsCli : option (NamespacesClient Authorizer)) :
  ((CreateNsService region name nsCli).1 = NilDereference
   ↔ nsCli = None
     ∨ ∃ cli keys,
         nsCli = Some cli
         ∧ NamespacesClient_ListKeys cli name name "RootManageSharedAccessKey"
           = inr keys
         ∧ PrimaryConnectionString keys = None)
  ∧ (nsCli = None → CreateNsService region name nsCli = (NilDereference, []))
  ∧ (∀ environ subscriptionID region' err,
       auth_NewAuthorizerFromEnvironment environ = inl err →
       (CreateServiceBusNamespaceClient environ subscriptionID region').1
       = Returns nsCli →
       CreateNsService region name nsCli = (NilDereference, []))
  ∧ (∀ cli, nsCli = Some cli →
       (CreateNsService region name nsCli).1 = NilDereference →
       (CreateNsService region name nsCli).2
       = [CallListKeys name name "RootManageSharedAccessKey"])
  ∧ ((CreateNsService region name nsCli).1 = Returns None
     ∨ (CreateNsService region name nsCli).1 = Aborts →
     ∃ made msg, (CreateNsService region name nsCli).2 = made ++ [CallFailf 3 msg]
                 ∧ ∀ offset msg', CallFailf offset msg' ∉ made).
Proof.
  assert (∀ environ subscriptionID region' err,
            auth_NewAuthorizerFromEnvironment environ = inl err →
            (CreateServiceBusNamespaceClient environ subscriptionID region').1
            = Returns nsCli →
            nsCli = None) as Hsibling.
  { intros environ subscriptionID region' err Hauth.
    unfold CreateServiceBusNamespaceClient. rewrite Hauth, Failf_then_return_fst.
    destruct Failf_returns; [|discriminate]. by intros [= <-]. }
  destruct nsCli as [cli|].
  2: { cbn [CreateNsService fst snd]. split; [split; [by left | done]|].
       split; [done|]. split; [done|]. split; [discriminate|].
       intros [Hr|Hr]; discriminate Hr. }
  assert (∀ P : Prop, (Some cli = None ∨ P) ↔ P) as Hsome
    by (intros P; split; [intros [Hn|HP]; [discriminate Hn | exact HP] | by right]).
  unfold CreateNsService.
  destruct (NamespacesClient_ListKeys cli name name "RootManageSharedAccessKey")
    as [err|keys] eqn:Hkeys.
  { rewrite Failf_then_return_fst. split; [|split; [|split; [|split]]].
    - rewrite Hsome. split; [destruct Failf_returns; discriminate|].
      intros (c & k & [= <-] & Hk & _). congruence.
    - discriminate.
    - intros environ subscriptionID region' err' Hauth Hret.
      discriminate (Hsibling _ _ _ _ Hauth Hret).
    - intros c _. destruct Failf_returns; discriminate.
    - intros _. eexists _, _. split; [done|]. intros offset msg'. set_solver. }
  destruct (PrimaryConnectionString keys) as [primary|] eqn:Hprimary.
  2: { cbn [fst snd]. split; [|split; [|split; [|split]]].
       - rewrite Hsome. split; [|done]. intros _. exists cli, keys. done.
       - discriminate.
       - intros environ subscriptionID region' err' Hauth Hret.
         discriminate (Hsibling _ _ _ _ Hauth Hret).
       - done.
       - intros [Hr|Hr]; discriminate Hr. }
  destruct (sv_NamespaceWithConnectionString (primary +:+ ";EntityPath=" +:+ name))
    as [svNs|].
  2: { rewrite Failf_then_return_fst. split; [|split; [|split; [|split]]].
       - rewrite Hsome. split; [destruct Failf_returns; discriminate|].
         intros (c & k & [= <-] & Hk & Hp). congruence.
       - discriminate.
       - intros environ subscriptionID region' err' Hauth Hret.
         discriminate (Hsibling _ _ _ _ Hauth Hret).
       - intros c _. destruct Failf_returns; discriminate.
       - intros _. eexists _, _. split; [done|]. intros offset msg'. set_solver. }
  destruct (servicebus_NewNamespace svNs) as [err|ns].
  { rewrite Failf_then_return_fst. split; [|split; [|split; [|split]]].
    - rewrite Hsome. split; [destruct Failf_returns; discriminate|].
      intros (c & k & [= <-] & Hk & Hp). congruence.
    - discriminate.
    - intros environ subscriptionID region' err' Hauth Hret.
      discriminate (Hsibling _ _ _ _ Hauth Hret).
    - intros c _. destruct Failf_returns; discriminate.
    - intros _. eexists _, _. split; [done|]. intros offset msg'. set_solver. }
  cbn [fst snd]. split; [|split; [|split; [|split]]].
  - rewrite Hsome. split; [discriminate|].
    intros (c & k & [= <-] & Hk & Hp). congruence.
  - discriminate.
  - intros environ subscriptionID region' err' Hauth Hret.
    discriminate (Hsibling _ _ _ _ Hauth Hret).
  - intros c _. discriminate.
  - intros [Hr|Hr]; discriminate Hr.
Qed.

(** [CreateServiceBusNamespaceClient] returns a client exactly when an
    authorizer can be made from the environment: the client of the
    subscription, with that authorizer. The region plays no part. *)
Theorem CreateServiceBusNamespaceClient_client
    (environ : gmap string string) (subscriptionID region : string)
    (cli : NamespacesClient Authorizer) :
  ((CreateServiceBusNamespaceClient environ subscriptionID region).1 = Returns (Some cli)
   ↔ ∃ authorizer,
       auth_NewAuthorizerFromEnvironment environ = inr authorizer
       ∧ cli = {| SubscriptionID :=
                    SubscriptionID (servicebus_NewNamespacesClient subscriptionID);
                  ClientAuthorizer := Some authorizer |})
  ∧ ∀ region', CreateServiceBusNamespaceClient environ subscriptionID region'
               = CreateServiceBusNamespaceClient environ subscriptionID region.
Proof.
  split; [|done]. unfold CreateServiceBusNamespaceClient.
  destruct (auth_NewAuthorizerFromEnvironment environ) as [err|authorizer].
  - rewrite Failf_then_return_fst. split.
    + destruct Failf_returns; discriminate.
    + intros (a & Ha & _). discriminate Ha.
  - cbn [fst]. split.
    + intros [= <-]. eauto.
    + intros (a & [= <-] & ->). done.
Qed.
End TestHelperFacts.

(** * More runs on the sample collaborators *)

Section SamplesMore.
Local Open Scope list_scope.

(** The parsed sample queue. *)
Lemma parseServiceBusResourceID_inr_witness :
  @json_Unmarshal sample_sdk (@strconv_Quote sample_runtime queue_q1) = (None, queue_q1_id)
  ∧ ResourceProvider queue_q1_id = resourceProviderServiceBus
  ∧ Namespace queue_q1_id ≠ EmptyString
  ∧ spec_valid_entity queue_q1_id.
Proof.
  exact (@parseServiceBusResourceID_inr sample_runtime sample_sdk
           queue_q1 queue_q1_id eq_refl).
Defined.

(** A string the decoder rejects. *)
Lemma parseServiceBusResourceID_inl_witness :
  ∃ derr,
    (@json_Unmarshal sample_sdk (@strconv_Quote sample_runtime "queues/q1")).1 = Some derr
    ∧ wrapError "deserializing resource ID string: invalid resource ID"
                (errorString "invalid resource ID")
      = wrapError ("deserializing resource ID string: " +:+ @Error sample_runtime derr) derr.
Proof.
  destruct (@parseServiceBusResourceID_inl sample_runtime sample_sdk "queues/q1"
              (wrapError "deserializing resource ID string: invalid resource ID"
                         (errorString "invalid resource ID")) eq_refl)
    as [Hdecoder|(Hnone & _)].
  - exact Hdecoder.
  - discriminate Hnone.
Defined.

(** The path of the parsed sample topic subscription. *)
Lemma entityPath_parsed_witness :
  entityPath topic_t1_id = "t1/Subscriptions/sub1".
Proof.
  destruct (@entityPath_parsed sample_runtime sample_sdk topic_t1 topic_t1_id eq_refl)
    as [(Hq & _)|(_ & _ & Hpath)].
  - discriminate Hq.
  - exact Hpath.
Defined.

(** Without key, the connection string of the environment is used. *)
Lemma connectionStringFromEnvironment_no_key_witness :
  @connectionStringFromEnvironment sample_sdk conn_string_only "ns1" "q1"
  = "Endpoint=sb://ns1.servicebus.windows.net;SharedAccessKeyName=k;SharedAccessKey=v".
Proof.
  destruct (@connectionStringFromEnvironment_no_key sample_runtime sample_sdk
              conn_string_only "ns1" "q1" eq_refl eq_refl) as (Hconn & _).
  rewrite Hconn. reflexivity.
Defined.

(** A client ID in the environment does not change the connection
    string. *)
Lemma connectionStringFromEnvironment_reads_witness :
  @connectionStringFromEnvironment sample_sdk
    (<["AZURE_CLIENT_ID" := "c1"]> key_pair) "ns1" "q1"
  = @connectionStringFromEnvironment sample_sdk key_pair "ns1" "q1".
Proof.
  apply (@connectionStringFromEnvironment_reads sample_sdk
           (<["AZURE_CLIENT_ID" := "c1"]> key_pair) key_pair "ns1" "q1");
    apply lookup_insert_ne; discriminate.
Defined.

(** An adapter for the sample queue, with a key in the environment. *)
Example NewAdapter_sample :
  @NewAdapter sample_runtime sample_sdk sample_servicebus key_pair (queue_env "default") tt
  = (Built {| msgRcvr := "q1" : @Receiver sample_sdk sample_servicebus;
              ceClient := tt : @CloudEventsClient sample_sdk sample_servicebus;
              msgPrcsr := defaultMessageProcessor queue_q1 |},
     [CallNewNamespace; CallNewReceiver "q1"; CallRegisterTracer]).
Proof. reflexivity. Qed.

(** A processor that does not exist. *)
Lemma NewAdapter_unsupported_processor_witness :
  ∃ msg err,
    (@NewAdapter sample_runtime sample_sdk sample_servicebus key_pair
       (queue_env "eventgrid") tt).1 = Panic msg err.
Proof.
  destruct (@NewAdapter_unsupported_processor sample_runtime sample_sdk sample_servicebus
              key_pair (queue_env "eventgrid") tt) as [Hpanic _].
  - discriminate.
  - exact Hpanic.
Defined.

(** The receiver of the sample queue is opened on the name of the
    queue. *)
Lemma NewAdapter_receiver_path_witness :
  ∃ r, @parseServiceBusResourceID sample_runtime sample_sdk queue_q1 = inr r
       ∧ "q1" = entityPath r
       ∧ ((ResourceType r = resourceTypeQueues ∧ "q1" = ResourceName r)
          ∨ (ResourceType r = resourceTypeTopics
             ∧ "q1" = ResourceName r +:+ "/Subscriptions/" +:+ SubResourceName r)).
Proof.
  apply (@NewAdapter_receiver_path sample_runtime sample_sdk sample_servicebus
           key_pair (queue_env "default") tt "q1").
  apply list_elem_of_In. right. left. reflexivity.
Defined.
(** The processor returns a pointer to an event and a pointer to
    nothing: the event is sent, the handler panics, nothing is
    completed. *)
Lemma handleMessage_nil_event_witness :
  ∃ s',
    @handleMessage sample_runtime nil_event_collaborators
      (Some message_m1) (initial_state nil_event_collaborators [])
    = Panicked s'
    ∧ dispatches (calls s') = 1
    ∧ completions (calls s') = 0.
Proof.
  destruct (@handleMessage_nil_event sample_runtime nil_event_collaborators
              message_m1 (initial_state nil_event_collaborators [])
              (processed_ptrs one_event message_m1) [] 1
              (processed one_event message_m1)
              (processed_heap one_event message_m1) [])
    as (s' & new & Hrun & Hcalls & _ & Hsent & Hcount).
  - reflexivity.
  - vm_compute. repeat constructor.
  - reflexivity.
  - exists s'. split; [exact Hrun|]. split; [|exact Hcount].
    rewrite Hcalls. exact Hsent.
Defined.

(** The run of [one_event] returns nil: its calls end with the
    completion. *)
Lemma handleMessage_nil_result_witness :
  ∃ new,
    calls (final_state
             (@handleMessage sample_runtime (sample_collaborators one_event)
                (Some message_m1) (initial_state (sample_collaborators one_event) [])))
    = [CallProcess message_m1] ++ new ++ [CallComplete message_m1 None]
    ∧ Forall (@acknowledged (sample_collaborators one_event)) new.
Proof.
  destruct (@handleMessage_nil_result sample_runtime (sample_collaborators one_event)
              message_m1 (initial_state (sample_collaborators one_event) [])
              (final_state
                 (@handleMessage sample_runtime (sample_collaborators one_event)
                    (Some message_m1)
                    (initial_state (sample_collaborators one_event) [])))
              eq_refl)
    as (events & h1 & w1 & es & new & _ & _ & Hcalls & _ & _ & Hack).
  exists new. split; [exact Hcalls | exact Hack].
Defined.

(** The error of the run of [two_events] is of the second kind. *)
Lemma handleMessage_error_kinds_witness :
  ∃ batch,
    batch ≠ []
    ∧ @Errorf_w sample_runtime "sending events to the sink: "
        (errList [wrapError "failed to send event with ID e2: timeout"
                            (errorString "timeout")])
      = wrapError ("sending events to the sink: "
                   +:+ @Error sample_runtime (errList batch)) (errList batch).
Proof.
  destruct (@handleMessage_error_kinds sample_runtime (sample_collaborators two_events)
              message_m1 (initial_state (sample_collaborators two_events) [])
              (final_state
                 (@handleMessage sample_runtime (sample_collaborators two_events)
                    (Some message_m1)
                    (initial_state (sample_collaborators two_events) [])))
              (@Errorf_w sample_runtime "sending events to the sink: "
                 (errList [wrapError "failed to send event with ID e2: timeout"
                                     (errorString "timeout")]))
              eq_refl)
    as [(perr & Hproc & _)|[(batch & Hne & Herr & _)|(new & Hcalls & _)]].
  - discriminate Hproc.
  - exists batch. split; [exact Hne | exact Herr].
  - apply (f_equal last) in Hcalls.
    rewrite !(assoc_L (++)), last_snoc in Hcalls.
    vm_compute in Hcalls. discriminate Hcalls.
Defined.

(** A message without events is completed. *)
Lemma handleMessage_no_events_witness :
  @handleMessage sample_runtime (sample_collaborators zero_events)
    (Some message_m1) (initial_state (sample_collaborators zero_events) [])
  = Done None
      {| heap := ∅;
         world := (@nil Event : @World (sample_collaborators zero_events));
         calls := [CallProcess message_m1; CallComplete message_m1 None] |}.
Proof.
  destruct (@handleMessage_no_events sample_runtime (sample_collaborators zero_events)
              message_m1 (initial_state (sample_collaborators zero_events) [])
              ∅ [] eq_refl) as [Hrun _].
  exact Hrun.
Defined.

(** The valid event of [one_event] goes to the sink as it is. *)
Lemma handleMessage_range_valid_witness :
  ∃ s',
    @handleMessage_range sample_runtime (sample_collaborators one_event)
      (processed_ptrs one_event message_m1) [] one_event_state
    = Done [] s'
    ∧ heap s' = heap one_event_state.
Proof.
  destruct (@handleMessage_range_valid sample_runtime (sample_collaborators one_event)
              (processed_ptrs one_event message_m1)
              (processed one_event message_m1) one_event_state [])
    as (s' & new & Hrun & Hheap & _).
  - vm_compute. repeat constructor.
  - repeat constructor.
  - exists s'. split; [exact Hrun | exact Hheap].
Defined.

(** The loop over [two_events] keeps the two locations of the store. *)
Lemma handleMessage_range_store_witness :
  dom (heap (final_state
               (@handleMessage_range sample_runtime (sample_collaborators two_events)
                  (processed_ptrs two_events message_m1) [] two_events_state)))
  = dom (heap two_events_state).
Proof.
  destruct (@handleMessage_range_store sample_runtime (sample_collaborators two_events)
              (processed_ptrs two_events message_m1) two_events_state
              (final_state
                 (@handleMessage_range sample_runtime (sample_collaborators two_events)
                    (processed_ptrs two_events message_m1) [] two_events_state))
              []
              [wrapError "failed to send event with ID e2: timeout"
                         (errorString "timeout")]
              eq_refl) as [Hdom _].
  exact Hdom.
Defined.

(** The batch of the loop over [two_events] has at most two entries. *)
Lemma handleMessage_range_batch_witness :
  ∃ s' entries,
    @handleMessage_range sample_runtime (sample_collaborators two_events)
      (processed_ptrs two_events message_m1) [] two_events_state
    = Done (map (λ ec, wrapError ("failed to send event with ID "
                                  +:+ Event_ID ec.1 +:+ ": "
                                  +:+ @Error sample_runtime ec.2) ec.2) entries) s'
    ∧ (length entries ≤ 2)%nat.
Proof.
  destruct (@handleMessage_range_batch sample_runtime (sample_collaborators two_events)
              (processed_ptrs two_events message_m1)
              (processed two_events message_m1) two_events_state [])
    as (s' & entries & Hrun & _ & _ & Hlen).
  - vm_compute. repeat constructor.
  - exists s', entries. split; [exact Hrun | exact Hlen].
Defined.

(** On a pointer to nothing, a validation error that lists [dataschema]
    makes the sanitizer panic. *)
Lemma sanitizeEvent_nil_witness :
  @sanitizeEvent (sample_collaborators one_event)
    {[ "dataschema" := errorString "malformed" ]} 5 anonymous_state
  = Panicked anonymous_state.
Proof.
  rewrite (@sanitizeEvent_nil (sample_collaborators one_event)
             {[ "dataschema" := errorString "malformed" ]} 5 anonymous_state eq_refl).
  reflexivity.
Defined.

(** Sanitizing the anonymous event again, for its missing ID, changes
    nothing. *)
Lemma sanitizeEvent_twice_witness :
  let s1 := final_state
              (@sanitizeEvent (sample_collaborators one_event)
                 {[ "dataschema" := errorString "malformed" ]} 0 anonymous_state) in
  @sanitizeEvent (sample_collaborators one_event)
    {[ "id" := errorString "MUST be a non-empty string" ]} 0 s1
  = Done 0 s1.
Proof.
  apply (@sanitizeEvent_twice (sample_collaborators one_event)
           {[ "dataschema" := errorString "malformed" ]}
           {[ "id" := errorString "MUST be a non-empty string" ]}
           0 anonymous_state).
  - reflexivity.
  - left. exists (errorString "malformed"). reflexivity.
Defined.

(** A client without authorizer: the creation is accepted, its
    completion fails, the result is not read. *)
Lemma CreateServiceBusNamespace_first_failure_witness :
  @CreateServiceBusNamespace sample_runtime sample_sdk sample_servicebus sample_test_sdk
    anonymous_client "rg1" "ns1" "westeurope"
  = (Returns (Some (errorString "unauthorized")),
     [CallCreateOrUpdate "rg1" "ns1" "westeurope"; CallWaitForCompletionRef;
      CallFailf 3 "unable to complete servicebus namespace creation: unauthorized"]).
Proof.
  destruct (@CreateServiceBusNamespace_first_failure sample_runtime sample_sdk
              sample_servicebus sample_test_sdk anonymous_client "rg1" "ns1" "westeurope")
    as (err & made & prefix & Hres & Hcalls
        & [(Hcreate & _)|[(f & _ & Hwait & -> & ->)|(f & _ & Hwait & _)]]).
  - discriminate.
  - discriminate Hcreate.
  - injection Hwait as <-. apply injective_projections; [exact Hres | exact Hcalls].
  - discriminate Hwait.
Defined.

(** The namespace service of [ns1]. *)
Lemma CreateNsService_built_witness :
  (@CreateNsService sample_runtime sample_sdk sample_servicebus sample_test_sdk
     "westeurope" "ns1" (Some anonymous_client)).2
  = [CallListKeys "ns1" "ns1" "RootManageSharedAccessKey";
     CallNamespaceWithConnectionString
       "Endpoint=sb://ns1.servicebus.windows.net/;SharedAccessKeyName=RootManageSharedAccessKey;SharedAccessKey=c2VjcmV0;EntityPath=ns1";
     CallNewNamespaceService].
Proof.
  destruct (@CreateNsService_built sample_runtime sample_sdk sample_servicebus
              sample_test_sdk "westeurope" "ns1" (Some anonymous_client)
              (Some "SAS") eq_refl)
    as [(cli & keys & primary & svNs & _ & Hkeys & Hprimary & _ & _ & Hcalls) _].
  injection Hkeys as <-. injection Hprimary as <-. exact Hcalls.
Defined.
End SamplesMore.
